(** * CK3 mod manager: validation and analysis engine

    A shallow embedding of [test_scripts/ck3_mod_manager.py] (class
    [CK3ModManager]) and the properties of its validation and analysis
    passes.

    Conventions of the embedding.
    - Document text is a [string] that holds the text in UTF-8; the
      character classes of Python's [re] module are fixed on the ASCII
      characters and otherwise given by tables.
    - A path is the list of its components ([pathlib]'s [parts]), relative to
      the root of the tree that stands for the file system; [str] of a path
      joins them with the POSIX separator.
    - The file system is a tree of named nodes without links, the children of
      a directory being listed in the order in which the operating system
      scans them. A file holds the text a read returns; text is written
      with the line ends of POSIX, that is as it is.
    - Code that may raise lives in the [Result] monad; the [errors] and
      [warnings] lists that the Python code mutates in place are threaded
      explicitly. Logging is not modelled. *)

From Stdlib Require Import String Ascii List Bool Arith Lia.
Import ListNotations.
Local Open Scope list_scope.
Local Open Scope string_scope.

(** ** Exceptions and the error monad *)

Inductive exn : Type :=
| AttributeError (cls attr : string)   (* attribute lookup on an instance *)
| OSError (msg : string).              (* failure of open/read/decode, message
                                          chosen by the I/O layer *)

(** [str(e)] *)
Definition str_exn (e : exn) : string :=
  match e with
  | AttributeError cls attr =>
      "'" ++ cls ++ "' object has no attribute '" ++ attr ++ "'"
  | OSError msg => msg
  end.

Inductive Result (A : Type) : Type :=
| Ok (a : A)
| Raise (e : exn).
Arguments Ok {A} a.
Arguments Raise {A} e.

Definition bind {A B : Type} (c : Result A) (k : A -> Result B) : Result B :=
  match c with
  | Ok a => k a
  | Raise e => Raise e
  end.

Notation "x <- c ;; k" := (bind c (fun x => k))
  (at level 61, c at next level, right associativity).
Notation "' p <- c ;; k" := (bind c (fun x => let ' p := x in k))
  (at level 61, p pattern, c at next level, right associativity).

(** ** Strings *)

Fixpoint drop (n : nat) (s : string) : string :=
  match n, s with
  | S k, String _ s' => drop k s'
  | _, _ => s
  end.

(** [needle in s] *)
Fixpoint contains (needle s : string) : bool :=
  prefix needle s ||
  match s with
  | EmptyString => false
  | String _ s' => contains needle s'
  end.

(** [s.endswith(suffix)] *)
Definition ends_with (suffix s : string) : bool :=
  (String.length suffix <=? String.length s)%nat &&
  (drop (String.length s - String.length suffix) s =? suffix).

(** [name in names] on a Python list of strings *)
Definition mem (name : string) (names : list string) : bool :=
  existsb (String.eqb name) names.

(** ** The fragment of [re] the manager uses

    Patterns are [str] patterns compiled without [re.ASCII], so the classes
    [\s], [\w] and [\d] are the Unicode ones. On the ASCII characters they
    are fixed; beyond them they are read off the Unicode database of the
    interpreter, which the tables of [Unicode] stand for. A character is
    given by its bytes in UTF-8. *)

Class Unicode : Type := {
  u_space : string -> bool;   (* [str.isspace] *)
  u_word : string -> bool;    (* [str.isalnum] *)
  u_digit : string -> bool;   (* decimal digits, category Nd *)
  (* white space is neither a letter nor a number *)
  u_space_not_word : forall ch, u_space ch = true -> u_word ch = false
}.

(** The tables that hold no character: with them the classes are those of
    [re.ASCII]. They serve for examples whose texts are ASCII, where no
    table is consulted. *)
Definition ascii_only : Unicode := {|
  u_space := fun _ => false;
  u_word := fun _ => false;
  u_digit := fun _ => false;
  u_space_not_word := fun _ _ => eq_refl
|}.

Module Re.

Definition in_range (lo hi : nat) (c : ascii) : bool :=
  ((lo <=? nat_of_ascii c) && (nat_of_ascii c <=? hi))%nat.

(** A byte that continues a character begun before it. *)
Definition continuation (c : ascii) : bool := in_range 128 191 c.

(** The characters of a text: each begins at a byte that is not a
    continuation byte and takes the continuation bytes that follow. *)
Fixpoint chars (s : string) : list string :=
  match s with
  | EmptyString => []
  | String c s' =>
      let rest := chars s' in
      match s' with
      | String c' _ =>
          if continuation c' then
            match rest with
            | ch :: rest' => String c ch :: rest'
            | [] => [String c ""]
            end
          else String c "" :: rest
      | EmptyString => [String c ""]
      end
  end.

(** The text made of the characters [l]. *)
Fixpoint flatten (l : list string) : string :=
  match l with
  | [] => ""
  | ch :: l' => ch ++ flatten l'
  end.

(** The characters of an ASCII word, one byte each. *)
Fixpoint letters (s : string) : list string :=
  match s with
  | EmptyString => []
  | String c s' => String c "" :: letters s'
  end.

(** On a character of one ASCII byte the rule [ascii] decides, on any other
    one the table does. *)
Definition class (ascii : Ascii.ascii -> bool) (table : string -> bool)
    (ch : string) : bool :=
  match ch with
  | String c EmptyString => if in_range 0 127 c then ascii c else table ch
  | _ => table ch
  end.

(** [\d] *)
Definition is_digit {U : Unicode} : string -> bool :=
  class (in_range 48 57) u_digit.

(** [\w] *)
Definition is_word {U : Unicode} : string -> bool :=
  class (fun c => in_range 97 122 c || in_range 65 90 c || in_range 48 57 c
                  || (c =? "_")%char)
        u_word.

(** [\s]: among the ASCII characters the tab, line feed, vertical tab, form
    feed, carriage return, the four separators 0x1c-0x1f and the space. *)
Definition is_space {U : Unicode} : string -> bool :=
  class (fun c => in_range 9 13 c || in_range 28 31 c || (c =? " ")%char)
        u_space.

Inductive atom : Type :=
| Lit (c : ascii)        (* an ordinary ASCII character *)
| Space                  (* \s *)
| Word                   (* \w *)
| Digit                  (* \d *)
| Not (c : ascii).       (* [^c] *)

Definition atom_matches {U : Unicode} (a : atom) (ch : string) : bool :=
  match a with
  | Lit x => ch =? String x ""
  | Space => is_space ch
  | Word => is_word ch
  | Digit => is_digit ch
  | Not x => negb (ch =? String x "")
  end.

Inductive item : Type :=
| One (a : atom)         (* a *)
| Star (a : atom)        (* a*  greedy *)
| Plus (a : atom)        (* a+  greedy *)
| Open                   (* (   start of group 1 *)
| Close.                 (* )   end of group 1 *)

Definition regex := list item.

(** A literal word as a sequence of [One (Lit _)] items. *)
Fixpoint lit (s : string) : regex :=
  match s with
  | EmptyString => []
  | String c s' => One (Lit c) :: lit s'
  end.

(** The state of a successful match attempt, as what was left of the
    subject where group 1 opened, where it closed and where the match
    ended. *)
Record found : Type := mkFound {
  g_open : list string;
  g_close : list string;
  m_end : list string
}.

Definition set_open (l : list string) (m : found) : found :=
  mkFound l (g_close m) (m_end m).
Definition set_close (l : list string) (m : found) : found :=
  mkFound (g_open m) l (m_end m).

(** [m.group(1)] *)
Definition group1 (m : found) : string :=
  flatten (firstn (List.length (g_open m) - List.length (g_close m))
                  (g_open m)).

(** Greedy repetition of one atom followed by the continuation [k], with
    backtracking: the longest run is tried first, then shorter ones. *)
Fixpoint greedy {U : Unicode} (a : atom) (k : list string -> option found)
    (l : list string) : option found :=
  match l with
  | ch :: l' =>
      if atom_matches a ch then
        match greedy a k l' with
        | Some m => Some m
        | None => k l
        end
      else k l
  | [] => k l
  end.

(** Match [r] at the start of [l]. *)
Fixpoint exec {U : Unicode} (r : regex) (l : list string) {struct r}
  : option found :=
  match r with
  | [] => Some (mkFound l l l)
  | One a :: r' =>
      match l with
      | ch :: l' => if atom_matches a ch then exec r' l' else None
      | [] => None
      end
  | Star a :: r' => greedy a (exec r') l
  | Plus a :: r' =>
      match l with
      | ch :: l' => if atom_matches a ch then greedy a (exec r') l' else None
      | [] => None
      end
  | Open :: r' => option_map (set_open l) (exec r' l)
  | Close :: r' => option_map (set_close l) (exec r' l)
  end.

(** The match at the leftmost character that has one. *)
Fixpoint search_from {U : Unicode} (r : regex) (l : list string)
  : option found :=
  match exec r l with
  | Some m => Some m
  | None =>
      match l with
      | _ :: l' => search_from r l'
      | [] => None
      end
  end.

(** [re.search(r, s)] *)
Definition search {U : Unicode} (r : regex) (s : string) : option found :=
  search_from r (chars s).

(** The matches from left to right, for a pattern whose matches are never
    empty: the scan moves one character at a time; [skip] counts the
    characters still covered by the previous match. *)
Fixpoint finditer_from {U : Unicode} (r : regex) (skip : nat)
    (l : list string) : list found :=
  match skip, l with
  | S k, _ :: l' => finditer_from r k l'
  | S _, [] => []
  | O, _ :: l' =>
      match exec r l with
      | Some m =>
          m :: finditer_from r (List.length l' - List.length (m_end m)) l'
      | None => finditer_from r 0 l'
      end
  | O, [] =>
      match exec r l with
      | Some m => [m]
      | None => []
      end
  end.

(** [re.finditer(r, s)] *)
Definition finditer {U : Unicode} (r : regex) (s : string) : list found :=
  finditer_from r 0 (chars s).

End Re.

Import Re.

(** ** The rule table ([self.rules], built in [__init__]) *)

Inductive rule_entry : Type :=
| RuleSet (required optional : list string) (patterns : list (string * regex))
| EffectCatalog (valid scopes : list string).

(** [name \s* = \s*], the head shared by every field pattern *)
Definition assign (name : string) : regex :=
  (lit name ++ [Star Space; One (Lit "="); Star Space])%list.

(** [(\w+\.\d+)] *)
Definition dotted_id : regex :=
  [Open; Plus Word; One (Lit "."); Plus Digit; Close].

(** [{([^}]+)}] *)
Definition braced : regex :=
  [One (Lit "{"); Open; Plus (Not "}"); Close; One (Lit "}")].

(** [namespace\s*=\s*(\w+)] *)
Definition namespace_re : regex :=
  (assign "namespace" ++ [Open; Plus Word; Close])%list.

(** [id\s*=\s*(\w+\.\d+)] *)
Definition id_re : regex := (assign "id" ++ dotted_id)%list.

Definition events_required : list string := ["namespace"; "id"].
Definition events_optional : list string := ["trigger"; "effect"].
Definition events_patterns : list (string * regex) :=
  [ ("namespace", namespace_re); ("id", id_re) ].

(** [is_shown\s*=\s*{([^}]+)}] *)
Definition is_shown_re : regex := (assign "is_shown" ++ braced)%list.

(** [effect\s*=\s*{([^}]+)}] *)
Definition effect_re : regex := (assign "effect" ++ braced)%list.

Definition decisions_required : list string := ["is_shown"; "effect"].
Definition decisions_optional : list string := ["ai_check"].
Definition decisions_patterns : list (string * regex) :=
  [ ("is_shown", is_shown_re); ("effect", effect_re) ].

Definition rules : list (string * rule_entry) :=
  [ ("events", RuleSet events_required events_optional events_patterns);
    ("decisions",
      RuleSet decisions_required decisions_optional decisions_patterns);
    ("effects",
      EffectCatalog ["add_prestige"; "add_gold"; "trigger_event"; "add_trait"]
                    ["character"; "title"; "province"]) ].

(** ** Paths and the file system *)

Definition Path := list string.

(** [str(path)] *)
Definition str_path (p : Path) : string := String.concat "/" p.

(** The components of a relative path given as text: the text is cut at
    every separator, and empty components and [.] are dropped. *)
Fixpoint split_path (component s : string) : list string :=
  match s with
  | EmptyString => [component]
  | String c s' =>
      if (c =? "/")%char then component :: split_path "" s'
      else split_path (component ++ String c "") s'
  end.

Definition parts (s : string) : Path :=
  filter (fun c => negb (c =? "") && negb (c =? ".")) (split_path "" s).

Inductive file_data : Type :=
| Text (content : string)      (* what [f.read()] returns, decoded as
                                  utf-8-sig *)
| Unreadable (e : exn).        (* what opening, reading or decoding raises *)

#[warnings="-register-all"]
Inductive node : Type :=
| File (name : string) (data : file_data)
| Dir (name : string) (children : list node).

Definition node_name (n : node) : string :=
  match n with
  | File name _ => name
  | Dir name _ => name
  end.

(** The node a path denotes, from the root [n]. *)
Fixpoint resolve (n : node) (p : Path) : option node :=
  match p with
  | [] => Some n
  | c :: p' =>
      match n with
      | Dir _ children =>
          match find (fun x => node_name x =? c) children with
          | Some x => resolve x p'
          | None => None
          end
      | File _ _ => None
      end
  end.

(** [path.exists()] *)
Definition exists_ (fs : node) (p : Path) : bool :=
  match resolve fs p with
  | Some _ => true
  | None => false
  end.

(** The entries selected by [**/*<ext>] below the directory [n], whose path
    is [here]: first the entries of the directory itself, then those of its
    subdirectories, in scan order. Every entry whose name matches is
    selected, whichever its kind. *)
Fixpoint select_from (ext : string) (here : Path) (n : node) : list Path :=
  match n with
  | File _ _ => []
  | Dir _ children =>
      (map (fun c => here ++ [node_name c])
           (filter (fun c => ends_with ext (node_name c)) children)
       ++ flat_map (fun c => select_from ext (here ++ [node_name c]) c)
                   children)%list
  end.

(** [list(base.glob('<folder>/**/*<ext>'))] *)
Definition glob (fs : node) (base folder : Path) (ext : string) : list Path :=
  match resolve fs (base ++ folder)%list with
  | Some n => select_from ext (base ++ folder)%list n
  | None => []
  end.

(** ** The manager *)

Record CK3ModManager : Type := mkManager {
  game_path : Path;
  mod_path : Path
}.

Record ModValidation : Type := mkModValidation {
  is_valid : bool;
  errors : list string;
  warnings : list string
}.

(** The two lists a validation pass appends to. *)
Definition findings : Type := (list string * list string)%type.

(** A method the class does not define: looking it up on the instance
    raises. *)
Definition undefined_method {A : Type} (attr : string) : Result A :=
  Raise (AttributeError "CK3ModManager" attr).

(** [self.mod_path / mod_name], for a name that is a relative path with no
    [..] component *)
Definition mod_dir (self : CK3ModManager) (mod_name : string) : Path :=
  (mod_path self ++ parts mod_name)%list.

Definition required_folders : list string := ["events"; "common"; "localization"].
Definition optional_folders : list string := ["gfx"; "music"; "interface"].

Definition missing (fs : node) (mod_path : Path) (folder : string) : bool :=
  negb (exists_ fs (mod_path ++ [folder])%list).

Definition _validate_structure (fs : node) (mod_path : Path)
    (errors warnings : list string) : findings :=
  let errors :=
    fold_left (fun errors folder =>
                 if missing fs mod_path folder
                 then (errors ++ [("Missing required folder: " ++ folder)%string])%list
                 else errors)
              required_folders errors in
  let warnings :=
    fold_left (fun warnings folder =>
                 if missing fs mod_path folder
                 then (warnings ++ [("Missing optional folder: " ++ folder)%string])%list
                 else warnings)
              optional_folders warnings in
  (errors, warnings).

Definition _validate_events {U : Unicode} (content : string) (file_path : Path)
    (errors warnings : list string) : findings :=
  fold_left
    (fun '(errors, warnings) '(pattern_name, pattern) =>
       match search pattern content with
       | None =>
           if mem pattern_name events_required
           then (app errors ["Missing required field '" ++ pattern_name
                             ++ "' in " ++ str_path file_path], warnings)
           else (errors, app warnings ["Missing optional field '" ++ pattern_name
                                       ++ "' in " ++ str_path file_path])
       | Some _ => (errors, warnings)
       end)
    events_patterns (errors, warnings).

(** [async with aiofiles.open(file_path, 'r', encoding='utf-8-sig') as f:
      return await f.read()] *)
Definition _read_file (fs : node) (file_path : Path) : Result string :=
  match resolve fs file_path with
  | Some (File _ (Text content)) => Ok content
  | Some (File _ (Unreadable e)) => Raise e
  | Some (Dir _ _) =>
      Raise (OSError ("[Errno 21] Is a directory: '" ++ str_path file_path ++ "'"))
  | None =>
      Raise (OSError ("[Errno 2] No such file or directory: '"
                      ++ str_path file_path ++ "'"))
  end.

(** The class has no method [_validate_decisions]. *)
Definition _validate_decisions (content : string) (file_path : Path)
    (errors warnings : list string) : Result findings :=
  undefined_method "_validate_decisions".

(** The class has no method [_validate_references]. *)
Definition _validate_references (mod_path : Path)
    (errors warnings : list string) : Result findings :=
  undefined_method "_validate_references".

(** The first loop of [_validate_content]. *)
Fixpoint validate_event_files {U : Unicode} (fs : node) (event_files : list Path)
    (errors warnings : list string) : Result findings :=
  match event_files with
  | [] => Ok (errors, warnings)
  | file :: rest =>
      content <- _read_file fs file ;;
      let '(errors, warnings) := _validate_events content file errors warnings in
      validate_event_files fs rest errors warnings
  end.

(** The second loop of [_validate_content]. *)
Fixpoint validate_decision_files (fs : node) (decision_files : list Path)
    (errors warnings : list string) : Result findings :=
  match decision_files with
  | [] => Ok (errors, warnings)
  | file :: rest =>
      content <- _read_file fs file ;;
      ' (errors, warnings) <- _validate_decisions content file errors warnings ;;
      validate_decision_files fs rest errors warnings
  end.

Definition _validate_content {U : Unicode} (fs : node) (mod_path : Path)
    (errors warnings : list string) : Result findings :=
  let event_files := glob fs mod_path ["events"] ".txt" in
  ' (errors, warnings) <- validate_event_files fs event_files errors warnings ;;
  let decision_files := glob fs mod_path ["common"; "decisions"] ".txt" in
  validate_decision_files fs decision_files errors warnings.

(** The body of the [try] block of [validate_mod]. *)
Definition validate_mod_try {U : Unicode} (self : CK3ModManager) (fs : node)
    (mod_name : string) : Result ModValidation :=
  let mod_path := mod_dir self mod_name in
  if negb (exists_ fs mod_path) then
    Ok (mkModValidation false ["Mod not found"] [])
  else
    let '(errors, warnings) := _validate_structure fs mod_path [] [] in
    ' (errors, warnings) <- _validate_content fs mod_path errors warnings ;;
    ' (errors, warnings) <- _validate_references mod_path errors warnings ;;
    Ok (mkModValidation (List.length errors =? 0)%nat errors warnings).

Definition validate_mod {U : Unicode} (self : CK3ModManager) (fs : node)
    (mod_name : string) : ModValidation :=
  match validate_mod_try self fs mod_name with
  | Ok report => report
  | Raise e => mkModValidation false [str_exn e] []
  end.

(** *** Analysis *)

(** The dictionary [{'type': ..., 'id': ...}] *)
Record Reference : Type := mkReference {
  ref_type : string;
  ref_id : string
}.

(** [trigger_event\s*=\s*(\w+\.\d+)] *)
Definition trigger_event_re : regex :=
  (assign "trigger_event" ++ dotted_id)%list.

Definition _extract_references {U : Unicode} (self : CK3ModManager) (content : string)
    : list Reference :=
  fold_left (fun references ref =>
               (references ++ [mkReference "event" (group1 ref)])%list)
            (finditer trigger_event_re content) [].

(** [references[key].extend(refs)] on a [defaultdict(list)]: a key that is
    absent is first inserted, at the end, with the empty list. *)
Fixpoint extend_at (key : string) (refs : list Reference)
    (references : list (string * list Reference))
    : list (string * list Reference) :=
  match references with
  | [] => [(key, refs)]
  | (k, v) :: rest =>
      if k =? key then (k, (v ++ refs)%list) :: rest
      else (k, v) :: extend_at key refs rest
  end.

Fixpoint analyze_event_files {U : Unicode} (self : CK3ModManager) (fs : node)
    (event_files : list Path) (references : list (string * list Reference))
    : Result (list (string * list Reference)) :=
  match event_files with
  | [] => Ok references
  | file :: rest =>
      content <- _read_file fs file ;;
      let refs := _extract_references self content in
      analyze_event_files self fs rest (extend_at "events" refs references)
  end.

Definition _analyze_references {U : Unicode} (self : CK3ModManager) (fs : node)
    (mod_path : Path) : Result (list (string * list Reference)) :=
  analyze_event_files self fs (glob fs mod_path ["events"] ".txt") [].

Definition _collect_stats (fs : node) (mod_path : Path) : list (string * nat) :=
  [ ("events", List.length (glob fs mod_path ["events"] ".txt"));
    ("decisions", List.length (glob fs mod_path ["common"; "decisions"] ".txt"));
    ("localizations", List.length (glob fs mod_path ["localization"] ".yml")) ].

(** The values of the analysis dictionary. *)
Inductive value : Type :=
| VStr (s : string)
| VReferences (d : list (string * list Reference))
| VStats (d : list (string * nat)).

(** The class has no method [_analyze_events]. *)
Definition _analyze_events (mod_path : Path) : Result value :=
  undefined_method "_analyze_events".

(** The class has no method [_analyze_decisions]. *)
Definition _analyze_decisions (mod_path : Path) : Result value :=
  undefined_method "_analyze_decisions".

(** The body of the [try] block of [analyze_mod]; the entries of the
    dictionary display are evaluated in the order written. *)
Definition analyze_mod_try {U : Unicode} (self : CK3ModManager) (fs : node)
    (mod_name : string) : Result (list (string * value)) :=
  let mod_path := mod_dir self mod_name in
  events <- _analyze_events mod_path ;;
  decisions <- _analyze_decisions mod_path ;;
  references <- _analyze_references self fs mod_path ;;
  let stats := _collect_stats fs mod_path in
  Ok [ ("events", events); ("decisions", decisions);
       ("references", VReferences references); ("stats", VStats stats) ].

Definition analyze_mod {U : Unicode} (self : CK3ModManager) (fs : node)
    (mod_name : string) : list (string * value) :=
  match analyze_mod_try self fs mod_name with
  | Ok analysis => analysis
  | Raise e => [("error", VStr (str_exn e))]
  end.

(** [d[key]] on a dictionary kept as an association list *)
Fixpoint get {V : Type} (key : string) (d : list (string * V)) : option V :=
  match d with
  | [] => None
  | (k, v) :: rest => if k =? key then Some v else get key rest
  end.

(** [list(d.keys())] *)
Definition keys {V : Type} (d : list (string * V)) : list string :=
  map fst d.

(** ** The end-to-end scenario

    A package [test_mod] with the folders [events], [common/decisions] and
    [localization] and no [gfx]; one event file that has a namespace and an
    id but neither trigger nor effect; one decision file that has an
    [is_shown] block and no [effect] block. *)

Module Scenario.

Definition manager : CK3ModManager :=
  mkManager ["game"] ["mod"].

Definition event_text : string :=
  "namespace=test_events test_events.1 = { id=test_events.1 }".

Definition decision_text : string :=
  "test_decision = { is_shown={ always = yes } }".

Definition event_file : Path :=
  ["mod"; "test_mod"; "events"; "test_events.txt"].

Definition decision_file : Path :=
  ["mod"; "test_mod"; "common"; "decisions"; "test_decisions.txt"].

Definition fs : node :=
  Dir ""
    [ Dir "mod"
        [ Dir "test_mod"
            [ Dir "events" [ File "test_events.txt" (Text event_text) ];
              Dir "common"
                [ Dir "decisions"
                    [ File "test_decisions.txt" (Text decision_text) ] ];
              Dir "localization" [] ] ] ].

Definition report {U : Unicode} : ModValidation := validate_mod manager fs "test_mod".

End Scenario.

(** ** A package with an undecodable file

    [broken] lacks the required folder [localization]; its first event file
    cannot be decoded, its second one declares no namespace. *)

Module Broken.

Definition manager : CK3ModManager :=
  mkManager ["game"] ["mod"].

Definition decode_error : exn :=
  OSError "'utf-8' codec can't decode byte 0xff in position 0: invalid start byte".

Definition fs : node :=
  Dir ""
    [ Dir "mod"
        [ Dir "broken"
            [ Dir "events"
                [ File "a.txt" (Unreadable decode_error);
                  File "b.txt" (Text "id = broken.1") ];
              Dir "common" [] ] ] ].

Definition report {U : Unicode} : ModValidation := validate_mod manager fs "broken".

End Broken.

(** ** Reference notions for the properties *)

(** The number of entries below the directory [n], at any depth, whose name
    ends in [ext]: what the convention [**/*<ext>] is meant to count. *)
Fixpoint count_matching (ext : string) (n : node) : nat :=
  match n with
  | File _ _ => 0
  | Dir _ children =>
      list_sum
        (map (fun c => (if ends_with ext (node_name c) then 1 else 0)
                       + count_matching ext c)
             children)
  end.

(** The same below the folder at path [folder]; nothing is counted when no
    such folder exists. *)
Definition matched (fs : node) (folder : Path) (ext : string) : nat :=
  match resolve fs folder with
  | Some n => count_matching ext n
  | None => 0
  end.

(** An identifier of the form word.number *)
Definition dotted_chars {U : Unicode} (id : list string) : Prop :=
  exists w d,
    id = (w ++ ["."] ++ d)%list /\
    w <> [] /\ forallb is_word w = true /\
    d <> [] /\ forallb is_digit d = true.

Definition dotted {U : Unicode} (id : string) : Prop :=
  exists l, id = flatten l /\ dotted_chars l.

(** A cross-reference that begins with the characters [l]: the word
    [trigger_event], white space, [=], white space and the identifier [id],
    a word, a dot and a number that takes every digit there is; [rest] is
    what follows the number. *)
Definition reference_at {U : Unicode} (l id rest : list string) : Prop :=
  exists ws1 ws2,
    l = (letters "trigger_event" ++ ws1 ++ ["="] ++ ws2 ++ id ++ rest)%list /\
    forallb is_space ws1 = true /\
    forallb is_space ws2 = true /\
    dotted_chars id /\
    (forall ch rest', rest = ch :: rest' -> is_digit ch = false).

(** The identifiers of the cross-references of a text, in document order:
    the text is read from left to right; where a cross-reference begins,
    its identifier is listed and reading resumes after it; elsewhere
    reading moves on by one character. *)
Inductive references_in {U : Unicode} : list string -> list string -> Prop :=
| refs_end :
    references_in [] []
| refs_miss ch l ids :
    (forall id rest, ~ reference_at (ch :: l) id rest) ->
    references_in l ids ->
    references_in (ch :: l) ids
| refs_hit l id rest ids :
    reference_at l id rest ->
    references_in rest ids ->
    references_in l (flatten id :: ids).

(** ** A package with nothing but [common] *)

Module Bare.

Definition fs : node :=
  Dir "" [ Dir "mod" [ Dir "bare" [ Dir "common" [] ] ] ].

Definition root : Path := ["mod"; "bare"].

End Bare.

(** ** Reference notions for the further properties *)

(** The errors the content check has for one event file. *)
Definition event_errors {U : Unicode} (content : string) (file_path : Path) : list string :=
  fst (_validate_events content file_path [] []).

(** Somewhere in [content]: the word [name], white space, [=], white
    space and then characters accepted by [value]. *)
Definition assigns {U : Unicode} (name : string)
    (value : list string -> Prop) (content : string) : Prop :=
  exists pre ws1 ws2 rest,
    chars content = (pre ++ letters name ++ ws1 ++ ["="] ++ ws2 ++ rest)%list /\
    forallb is_space ws1 = true /\
    forallb is_space ws2 = true /\
    value rest.

Definition starts_with_word {U : Unicode} (l : list string) : Prop :=
  exists ch rest, l = ch :: rest /\ is_word ch = true.

Definition starts_with_dotted {U : Unicode} (l : list string) : Prop :=
  exists id rest, l = (id ++ rest)%list /\ dotted_chars id.

(** [r] matches at the start of [l]. *)
Definition matches {U : Unicode} (r : regex) (l : list string) : Prop :=
  exists m, exec r l = Some m.

(** A package with an event file two directories down. *)
Module Nested.

Definition deep_file : node := File "deep.txt" (Text "namespace = deep").

Definition fs : node :=
  Dir "" [ Dir "mod" [ Dir "nested"
    [ Dir "events" [ Dir "chapter" [ Dir "one" [ deep_file ] ] ] ] ] ].

End Nested.

(** ** Changing the file system

    The tree carries no permissions: every directory can be written to. An
    entry that is created is listed last in its directory. *)

(** [str(path)], the empty path included *)
Definition path_text (p : Path) : string :=
  match p with
  | [] => "."
  | _ :: _ => str_path p
  end.

(** In the list [children] of a directory, replace the entry named [c] by
    what [f] makes of it, or add what [absent] gives when there is none. *)
Fixpoint update_child (c : string) (f : node -> Result node)
    (absent : Result node) (children : list node) : Result (list node) :=
  match children with
  | [] => x <- absent ;; Ok [x]
  | x :: rest =>
      if node_name x =? c then x' <- f x ;; Ok (x' :: rest)
      else rest' <- update_child c f absent rest ;; Ok (x :: rest')
  end.

(** [path.mkdir(parents=True, exist_ok=True)] for the path [full], of which
    [p] is what remains to walk from [n]: directories on the way are kept,
    missing ones are made, a file on the way makes the call fail before
    anything is made. *)
Fixpoint mkdir_p (full p : Path) (n : node) {struct p} : Result node :=
  match n, p with
  | File _ _, [] =>
      Raise (OSError ("[Errno 17] File exists: '" ++ path_text full ++ "'"))
  | File _ _, _ :: _ =>
      Raise (OSError ("[Errno 20] Not a directory: '" ++ path_text full ++ "'"))
  | Dir _ _, [] => Ok n
  | Dir name children, c :: p' =>
      children' <- update_child c (mkdir_p full p')
                                (mkdir_p full p' (Dir c [])) children ;;
      Ok (Dir name children')
  end.

Definition cr : ascii := ascii_of_nat 13.
Definition lf : ascii := ascii_of_nat 10.

(** Reading in text mode with [newline=None]: every line end, [\r\n] or
    [\r], comes out as [\n]. *)
Fixpoint universal_newlines (s : string) : string :=
  match s with
  | EmptyString => EmptyString
  | String c s' =>
      if (c =? cr)%char then
        String lf
          match s' with
          | String c' s'' =>
              if (c' =? lf)%char then universal_newlines s''
              else universal_newlines s'
          | EmptyString => EmptyString
          end
      else String c (universal_newlines s')
  end.

(** The decoder of [utf-8-sig] drops a byte-order mark, the bytes EF BB BF,
    at the start of the file. *)
Definition strip_bom (s : string) : string :=
  match s with
  | String a (String b (String c s')) =>
      if ((nat_of_ascii a =? 239) && (nat_of_ascii b =? 187)
          && (nat_of_ascii c =? 191))%nat
      then s' else s
  | _ => s
  end.

(** What [_read_file] returns for a file to which [content] was written
    with [encoding='utf-8']. *)
Definition read_back (content : string) : string :=
  universal_newlines (strip_bom content).

(** Opening [full] for writing, writing [content] and closing: the file is
    created in an existing directory or its content is replaced. The node
    holds what a read of the file returns from then on. *)
Fixpoint write_file (full p : Path) (content : string) (n : node) {struct p}
  : Result node :=
  match n, p with
  | File name _, [] => Ok (File name (Text (read_back content)))
  | Dir _ _, [] =>
      Raise (OSError ("[Errno 21] Is a directory: '" ++ path_text full ++ "'"))
  | File _ _, _ :: _ =>
      Raise (OSError ("[Errno 20] Not a directory: '" ++ path_text full ++ "'"))
  | Dir name children, c :: p' =>
      children' <- update_child c (write_file full p' content)
                     (match p' with
                      | [] => Ok (File c (Text (read_back content)))
                      | _ :: _ =>
                          Raise (OSError ("[Errno 2] No such file or directory: '"
                                          ++ path_text full ++ "'"))
                      end)
                     children ;;
      Ok (Dir name children')
  end.

(** Code that changes the file system: what it has changed before an
    exception stays changed. *)
Definition FS (A : Type) : Type := node -> Result A * node.

Definition fs_ret {A : Type} (a : A) : FS A := fun fs => (Ok a, fs).

Definition fs_bind {A B : Type} (c : FS A) (k : A -> FS B) : FS B :=
  fun fs =>
    match c fs with
    | (Ok a, fs') => k a fs'
    | (Raise e, fs') => (Raise e, fs')
    end.

Notation "c >> k" := (fs_bind c (fun _ => k))
  (at level 62, right associativity).

(** A call that changes the tree or fails and leaves it as it is. *)
Definition fs_update (f : node -> Result node) : FS unit :=
  fun fs =>
    match f fs with
    | Ok fs' => (Ok tt, fs')
    | Raise e => (Raise e, fs)
    end.

Definition mkdir (p : Path) : FS unit := fs_update (mkdir_p p p).

Definition write_text (p : Path) (content : string) : FS unit :=
  fs_update (write_file p p content).

(** ** Creating a mod *)

Definition quote : string := String (ascii_of_nat 34) "".
Definition newline : string := String (ascii_of_nat 10) "".

(** A value of the [mod_info] dictionary: a list of strings, or anything
    else, given by its [str()]. *)
Inductive info_value : Type :=
| IStr (s : string)
| IList (items : list string).

(** [d.get(key, default)] *)
Definition get_default {V : Type} (key : string) (default : V)
    (d : list (string * V)) : V :=
  match get key d with
  | Some v => v
  | None => default
  end.

(** The dictionary [descriptor] of [_create_descriptor] *)
Definition descriptor (mod_path : Path) (mod_info : list (string * info_value))
  : list (string * info_value) :=
  [ ("name", get_default "name" (IStr "New Mod") mod_info);
    ("version", get_default "version" (IStr "1.0.0") mod_info);
    ("supported_version",
      get_default "supported_version" (IStr "1.8.*") mod_info);
    ("path", IStr (path_text mod_path));
    ("tags", get_default "tags" (IList ["Historical"; "Gameplay"]) mod_info) ].

(** What one turn of the loop of [_create_descriptor] writes. Of the three
    literals of the list case only the first is an f-string: the two
    braces that end the third are written as they are. *)
Definition descriptor_line (key : string) (value : info_value) : string :=
  match value with
  | IList items =>
      key ++ "={" ++ quote
          ++ String.concat (quote ++ " " ++ quote) items
          ++ quote ++ "}}" ++ newline
  | IStr s => key ++ "=" ++ quote ++ s ++ quote ++ newline
  end.

Definition descriptor_text (mod_path : Path)
    (mod_info : list (string * info_value)) : string :=
  fold_left (fun written '(key, value) => written ++ descriptor_line key value)
            (descriptor mod_path mod_info) "".

Definition _create_descriptor (mod_path : Path)
    (mod_info : list (string * info_value)) : FS unit :=
  write_text (mod_path ++ ["descriptor.mod"])%list
             (descriptor_text mod_path mod_info).

(** The class has no method [_create_base_files]. *)
Definition _create_base_files (mod_path : Path) : FS unit :=
  fun fs => (undefined_method "_create_base_files", fs).

Definition folders : list string :=
  ["events"; "common/decisions"; "localization"; "gfx"].

(** The loop over [folders] of [create_mod]. *)
Fixpoint make_folders (mod_path : Path) (folders : list string) : FS unit :=
  match folders with
  | [] => fs_ret tt
  | folder :: rest =>
      mkdir (mod_path ++ parts folder)%list >> make_folders mod_path rest
  end.

(** The body of the [try] block of [create_mod]. *)
Definition create_mod_try (self : CK3ModManager) (mod_name : string)
    (mod_info : list (string * info_value)) : FS bool :=
  let mod_path := mod_dir self mod_name in
  mkdir mod_path >>
  make_folders mod_path folders >>
  _create_descriptor mod_path mod_info >>
  _create_base_files mod_path >>
  fs_ret true.

(** [create_mod]: what it returns and the file system it leaves. *)
Definition create_mod (self : CK3ModManager) (mod_name : string)
    (mod_info : list (string * info_value)) (fs : node) : bool * node :=
  match create_mod_try self mod_name mod_info fs with
  | (Ok created, fs') => (created, fs')
  | (Raise _, fs') => (false, fs')
  end.

(** No prefix of [p], [p] included, is a file. *)
Definition no_file_on (fs : node) (p : Path) : Prop :=
  forall q r name data,
    p = (q ++ r)%list -> resolve fs q <> Some (File name data).

(** [p] is a directory. *)
Definition dir_at (fs : node) (p : Path) : Prop :=
  exists name children, resolve fs p = Some (Dir name children).

(** From [fs] to [fs'] no directory has gone and, [p] apart, the files are
    the same, with the same content. *)
Definition untouched_but (p : Path) (fs fs' : node) : Prop :=
  (forall q name data,
     q <> p ->
     (resolve fs' q = Some (File name data) <->
      resolve fs q = Some (File name data))) /\
  (forall q, dir_at fs q -> dir_at fs' q).

(** Nothing stands in the way of the folders and of the descriptor of a
    mod at [d]: no file where a folder or one of its parents has to be, no
    directory where the descriptor has to be. *)
Definition can_scaffold (fs : node) (d : Path) : Prop :=
  (forall folder, In folder folders -> no_file_on fs (d ++ parts folder)%list) /\
  ~ dir_at fs (d ++ ["descriptor.mod"])%list.

(** Running [c] again on what it left gives the same result and changes
    nothing more. *)
Definition idempotent {A : Type} (c : FS A) : Prop :=
  forall fs, c (snd (c fs)) = (fst (c fs), snd (c fs)).

(** [s.count(c)] for a character *)
Fixpoint count_char (c : ascii) (s : string) : nat :=
  match s with
  | EmptyString => 0
  | String x s' => (if (x =? c)%char then 1 else 0) + count_char c s'
  end.

(** ** The usage example ([main])

    What [print] makes of a report and of an analysis is left open:
    [show_validation] and [show_analysis] stand for the two formatted
    values. The result is the lines printed and the file system left. *)

Definition main_manager : CK3ModManager :=
  mkManager
    (parts "C:/Program Files (x86)/Steam/steamapps/common/Crusader Kings III")
    (parts "Documents/Paradox Interactive/Crusader Kings III/mod").

Definition main_mod_info : list (string * info_value) :=
  [ ("name", IStr "Test Mod");
    ("version", IStr "1.0.0");
    ("supported_version", IStr "1.8.*");
    ("tags", IList ["Historical"; "Gameplay"]) ].

Definition main {U : Unicode} (show_validation : ModValidation -> string)
    (show_analysis : list (string * value) -> string) (fs : node)
  : list string * node :=
  let '(success, fs) := create_mod main_manager "test_mod" main_mod_info fs in
  if success then
    let validation := validate_mod main_manager fs "test_mod" in
    let analysis := analyze_mod main_manager fs "test_mod" in
    ([ "Validation: " ++ show_validation validation;
       "Analysis: " ++ show_analysis analysis ], fs)
  else ([], fs).



(** The examples on ASCII texts are stated for the tables that hold no
    character. *)
#[export] Existing Instance ascii_only.

(** * Properties *)

(** ** Lists built by appending in a loop *)

Lemma fold_left_append_if {A B : Type} (p : A -> bool) (f : A -> B)
    (l : list A) (acc : list B) :
  fold_left (fun acc x => if p x then (acc ++ [f x])%list else acc) l acc
  = (acc ++ map f (filter p l))%list.
Proof.
  revert acc; induction l as [|x l IH]; intros acc; simpl.
  - now rewrite app_nil_r.
  - rewrite IH. destruct (p x); simpl; [|reflexivity].
    now rewrite <- app_assoc.
Qed.

Lemma fold_left_append {A B : Type} (f : A -> B) (l : list A) (acc : list B) :
  fold_left (fun acc x => (acc ++ [f x])%list) l acc = (acc ++ map f l)%list.
Proof.
  revert acc; induction l as [|x l IH]; intros acc; simpl.
  - now rewrite app_nil_r.
  - rewrite IH. now rewrite <- app_assoc.
Qed.

(** ** The rule table *)

(** C8. In the rule table built by the constructor, for every content
    category (an entry with required, optional and patterns), every key of
    [patterns] is in exactly one of [required] and [optional], and no field
    is in both [required] and [optional]. *)
Theorem rules_patterns_classified :
  forall category required optional patterns,
    In (category, RuleSet required optional patterns) rules ->
    (forall name pattern, In (name, pattern) patterns ->
       (In name required /\ ~ In name optional) \/
       (~ In name required /\ In name optional)) /\
    (forall name, ~ (In name required /\ In name optional)).
Proof.
  intros category required optional patterns Hin.
  simpl in Hin.
  destruct Hin as [H | [H | [H | []]]]; inversion H; subst; clear H.
  - split.
    + intros name pattern [H | [H | []]]; inversion H; subst; left;
        (split; [simpl; tauto | simpl; intuition discriminate]).
    + intros name [Hr Ho]. simpl in Hr, Ho.
      destruct Hr as [<- | [<- | []]]; intuition discriminate.
  - split.
    + intros name pattern [H | [H | []]]; inversion H; subst; left;
        (split; [simpl; tauto | simpl; intuition discriminate]).
    + intros name [Hr Ho]. simpl in Hr, Ho.
      destruct Hr as [<- | [<- | []]]; intuition discriminate.
Qed.

Lemma rules_patterns_classified_witness :
  In ("events", RuleSet events_required events_optional events_patterns) rules /\
  (forall name pattern, In (name, pattern) events_patterns ->
     (In name events_required /\ ~ In name events_optional) \/
     (~ In name events_required /\ In name events_optional)) /\
  (forall name, ~ (In name events_required /\ In name events_optional)).
Proof.
  assert (H : In ("events",
                  RuleSet events_required events_optional events_patterns)
                 rules) by (simpl; auto).
  split; [exact H|].
  exact (rules_patterns_classified _ _ _ _ H).
Defined.

(** ** The content check of event files *)

(** The check appends one error per required field whose pattern finds
    nothing, in the order of the [patterns] mapping. *)
Lemma validate_events_eq {U : Unicode} (content : string) (file_path : Path)
    (errors warnings : list string) :
  _validate_events content file_path errors warnings =
    ((errors ++
        map (fun '(name, _) =>
               ("Missing required field '" ++ name ++ "' in "
                ++ str_path file_path)%string)
            (filter (fun '(_, pattern) =>
                       match search pattern content with
                       | None => true
                       | Some _ => false
                       end)
                    events_patterns))%list,
     warnings).
Proof.
  unfold _validate_events, events_patterns. simpl.
  destruct (search namespace_re content);
    destruct (search id_re content); simpl;
    now rewrite <- ?app_assoc, ?app_nil_r.
Qed.

(** A document that declares a namespace and no id gets one error, for
    [id], and nothing for [namespace]. *)
Example validate_events_missing_id {U : Unicode} :
  _validate_events "namespace=ck3_test" ["events"; "test.txt"] [] [] =
    (["Missing required field 'id' in events/test.txt"], []).
Proof. reflexivity. Qed.

(** C10. Every key of the [patterns] mapping of category [events] is a
    required field, so the event content check leaves the warnings list as
    it found it, whatever the document: the branch that reports a missing
    optional field is never taken. *)
Theorem validate_events_keeps_warnings {U : Unicode} :
  forall content file_path errors warnings,
    snd (_validate_events content file_path errors warnings) = warnings.
Proof.
  intros content file_path errors warnings.
  unfold _validate_events, events_patterns. simpl.
  destruct (search namespace_re content);
    destruct (search id_re content); reflexivity.
Qed.

(** C4, as the code has it. The content check of category [events] looks
    only for the fields that have a pattern, [namespace] and [id]. For a
    document in which neither is found (in particular one with none of the
    four fields) it emits exactly two errors, one per required field in the
    declared order, and no warning. *)
Theorem validate_events_reports_required_only {U : Unicode} :
  forall content file_path errors warnings,
    search namespace_re content = None ->
    search id_re content = None ->
    _validate_events content file_path errors warnings =
      (app errors
           [ "Missing required field 'namespace' in " ++ str_path file_path;
             "Missing required field 'id' in " ++ str_path file_path ],
       warnings).
Proof.
  intros content file_path errors warnings Hns Hid.
  unfold _validate_events, events_patterns. simpl.
  rewrite Hns, Hid. simpl.
  now rewrite <- app_assoc.
Qed.

Lemma validate_events_reports_required_only_witness :
  search namespace_re "title = no_fields_here" = None /\
  search id_re "title = no_fields_here" = None /\
  _validate_events "title = no_fields_here" ["events"; "plain.txt"] [] [] =
    ([ "Missing required field 'namespace' in events/plain.txt";
       "Missing required field 'id' in events/plain.txt" ], []).
Proof.
  split; [reflexivity|]. split; [reflexivity|].
  apply (validate_events_reports_required_only
           "title = no_fields_here" ["events"; "plain.txt"] [] []);
    reflexivity.
Defined.

(** C4, as stated, fails: a document with none of the four fields gets two
    errors but not two warnings. *)
Lemma validate_events_no_optional_warnings :
  ~ (List.length
       (fst (_validate_events "title = no_fields_here"
                              ["events"; "plain.txt"] [] [])) = 2 /\
     List.length
       (snd (_validate_events "title = no_fields_here"
                              ["events"; "plain.txt"] [] [])) = 2).
Proof.
  vm_compute. intros [_ H]. discriminate H.
Qed.

(** ** The structure check *)

Lemma validate_structure_eq (fs : node) (mod_path : Path)
    (errors warnings : list string) :
  _validate_structure fs mod_path errors warnings =
    ((errors ++ map (append "Missing required folder: ")
                    (filter (missing fs mod_path) required_folders))%list,
     (warnings ++ map (append "Missing optional folder: ")
                      (filter (missing fs mod_path) optional_folders))%list).
Proof.
  unfold _validate_structure.
  now rewrite !(fold_left_append_if (missing fs mod_path)).
Qed.

(** C5. The structure check appends to [errors] one message per missing
    required folder and to [warnings] one message per missing optional
    folder, each in the order of the declared folder lists, which does not
    depend on how the file system lists the package. When [events] is
    missing, exactly one emitted error mentions [events]; when [gfx] is
    missing, exactly one emitted warning is for [gfx]. *)
Theorem validate_structure_findings :
  forall fs mod_path errors warnings,
    let emitted_errors :=
      map (append "Missing required folder: ")
          (filter (missing fs mod_path) required_folders) in
    let emitted_warnings :=
      map (append "Missing optional folder: ")
          (filter (missing fs mod_path) optional_folders) in
    _validate_structure fs mod_path errors warnings =
      ((errors ++ emitted_errors)%list, (warnings ++ emitted_warnings)%list) /\
    (missing fs mod_path "events" = true ->
       filter (contains "events") emitted_errors =
         ["Missing required folder: events"]) /\
    (missing fs mod_path "gfx" = true ->
       filter (contains "gfx") emitted_warnings =
         ["Missing optional folder: gfx"]).
Proof.
  intros fs mod_path errors warnings emitted_errors emitted_warnings.
  split; [apply validate_structure_eq|].
  subst emitted_errors emitted_warnings.
  unfold required_folders, optional_folders. simpl filter at 2 4.
  split; intros ->.
  - destruct (missing fs mod_path "common");
      destruct (missing fs mod_path "localization"); reflexivity.
  - destruct (missing fs mod_path "music");
      destruct (missing fs mod_path "interface"); reflexivity.
Qed.

Lemma validate_structure_findings_witness :
  missing Bare.fs Bare.root "events" = true /\
  missing Bare.fs Bare.root "gfx" = true /\
  _validate_structure Bare.fs Bare.root [] [] =
    ( [ "Missing required folder: events";
        "Missing required folder: localization" ],
      [ "Missing optional folder: gfx"; "Missing optional folder: music";
        "Missing optional folder: interface" ] ) /\
  filter (contains "events")
         (map (append "Missing required folder: ")
              (filter (missing Bare.fs Bare.root) required_folders)) =
    ["Missing required folder: events"] /\
  filter (contains "gfx")
         (map (append "Missing optional folder: ")
              (filter (missing Bare.fs Bare.root) optional_folders)) =
    ["Missing optional folder: gfx"].
Proof.
  pose proof (validate_structure_findings Bare.fs Bare.root [] [])
    as [Heq [Hevents Hgfx]].
  split; [reflexivity|]. split; [reflexivity|].
  split; [exact Heq|].
  split; [apply Hevents | apply Hgfx]; reflexivity.
Defined.

(** ** The validation pass *)

Lemma validate_event_files_raise {U : Unicode} (fs : node) (e : exn) (file : Path)
    (post : list Path) :
  forall pre errors warnings,
    (forall f, In f pre -> exists content, _read_file fs f = Ok content) ->
    _read_file fs file = Raise e ->
    validate_event_files fs (pre ++ file :: post)%list errors warnings = Raise e.
Proof.
  induction pre as [|f pre IH]; intros errors warnings Hpre Hfile; simpl.
  - now rewrite Hfile.
  - destruct (Hpre f (or_introl eq_refl)) as [content ->]. simpl.
    destruct (_validate_events content f errors warnings) as [errors' warnings'].
    apply IH; [|exact Hfile].
    intros g Hg. apply Hpre. now right.
Qed.

(** Whatever the package, a pass over an existing mod folder ends in an
    exception: its last step asks for [self._validate_references], which the
    class does not define. *)
Lemma validate_mod_try_existing {U : Unicode} (self : CK3ModManager) (fs : node)
    (mod_name : string) :
  exists_ fs (mod_dir self mod_name) = true ->
  exists e, validate_mod_try self fs mod_name = Raise e.
Proof.
  intros Hexists. unfold validate_mod_try. rewrite Hexists. cbn [negb].
  destruct (_validate_structure fs (mod_dir self mod_name) [] [])
    as [errors warnings].
  destruct (_validate_content fs (mod_dir self mod_name) errors warnings)
    as [[errors' warnings'] | e]; simpl; eauto.
Qed.

(** C9. [validate_mod] returns a [ModValidation] for every mod name and
    every state of the file system. A mod path that does not exist gives the
    report (False, ["Mod not found"], []); an exception raised anywhere in
    the pass gives the report (False, [str(e)], []): invalid, one error, no
    warning. A pass that raises nothing returns its own report. *)
Theorem validate_mod_total {U : Unicode} :
  forall self fs mod_name,
    (exists_ fs (mod_dir self mod_name) = false ->
       validate_mod self fs mod_name =
         mkModValidation false ["Mod not found"] []) /\
    (forall e, validate_mod_try self fs mod_name = Raise e ->
       validate_mod self fs mod_name = mkModValidation false [str_exn e] []) /\
    (forall report, validate_mod_try self fs mod_name = Ok report ->
       validate_mod self fs mod_name = report).
Proof.
  intros self fs mod_name. unfold validate_mod. repeat split.
  - intros Hmissing. unfold validate_mod_try. now rewrite Hmissing.
  - now intros e ->.
  - now intros report ->.
Qed.

Lemma validate_mod_total_witness :
  exists_ Scenario.fs (mod_dir Scenario.manager "elsewhere") = false /\
  validate_mod Scenario.manager Scenario.fs "elsewhere" =
    mkModValidation false ["Mod not found"] [] /\
  validate_mod_try Broken.manager Broken.fs "broken" =
    Raise Broken.decode_error /\
  validate_mod Broken.manager Broken.fs "broken" =
    mkModValidation false [str_exn Broken.decode_error] [].
Proof.
  split; [reflexivity|]. split.
  - apply (proj1 (validate_mod_total Scenario.manager Scenario.fs "elsewhere")).
    reflexivity.
  - split; [reflexivity|].
    apply (proj1 (proj2 (validate_mod_total Broken.manager Broken.fs "broken"))).
    reflexivity.
Defined.

(** C2, as the code has it. A validation pass has one handler, around the
    whole pass. When reading an event file fails, the pass stops there: the
    report is invalid, its only error is the message of that failure, and it
    has no warning; what was found before is dropped and the files after it
    are not looked at. *)
Theorem validate_mod_read_failure_aborts {U : Unicode} :
  forall self fs mod_name pre file post e,
    exists_ fs (mod_dir self mod_name) = true ->
    glob fs (mod_dir self mod_name) ["events"] ".txt"
      = (pre ++ file :: post)%list ->
    (forall f, In f pre -> exists content, _read_file fs f = Ok content) ->
    _read_file fs file = Raise e ->
    validate_mod self fs mod_name = mkModValidation false [str_exn e] [].
Proof.
  intros self fs mod_name pre file post e Hexists Hglob Hpre Hfile.
  unfold validate_mod, validate_mod_try. rewrite Hexists. cbn [negb].
  destruct (_validate_structure fs (mod_dir self mod_name) [] [])
    as [errors warnings].
  unfold _validate_content. rewrite Hglob.
  now rewrite (validate_event_files_raise fs e file post pre errors warnings).
Qed.

Lemma validate_mod_read_failure_aborts_witness :
  Broken.report = mkModValidation false [str_exn Broken.decode_error] [].
Proof.
  apply (validate_mod_read_failure_aborts Broken.manager Broken.fs "broken"
           [] ["mod"; "broken"; "events"; "a.txt"]
           [["mod"; "broken"; "events"; "b.txt"]] Broken.decode_error).
  - reflexivity.
  - reflexivity.
  - intros f [].
  - reflexivity.
Defined.

(** C2, as stated, fails on [Broken]: the error found before the file that
    cannot be decoded (the missing folder [localization]) is not in the
    report, nor is the error of the file after it. *)
Lemma validate_mod_read_failure_not_isolated :
  ~ (In "Missing required folder: localization" (errors Broken.report) /\
     In "Missing required field 'namespace' in mod/broken/events/b.txt"
        (errors Broken.report)).
Proof.
  vm_compute. intros [[H | []] _]. discriminate H.
Qed.

(** C1, as the code has it. In the end-to-end scenario the report is
    invalid. The event file gets no finding: its namespace and id are found,
    and the absence of a trigger is not reported, the rule set having no
    pattern for it. The structure check reports the missing optional folder
    [gfx] as a warning. *)
Theorem scenario_validation {U : Unicode} :
  is_valid Scenario.report = false /\
  _validate_events Scenario.event_text Scenario.event_file [] [] = ([], []) /\
  In "Missing optional folder: gfx"
     (snd (_validate_structure Scenario.fs
             (mod_dir Scenario.manager "test_mod") [] [])).
Proof.
  split; [reflexivity|]. split; [reflexivity|].
  vm_compute. now left.
Qed.

(** C1, as stated, fails: the report of the scenario has no warning about
    the folder [gfx] (nor one about a trigger, nor an error about the effect
    block of the decision file). *)
Lemma scenario_report_differs :
  ~ (is_valid Scenario.report = false /\
     (exists e, In e (errors Scenario.report) /\
                contains "'effect'" e = true /\
                contains (str_path Scenario.decision_file) e = true) /\
     (exists w, In w (warnings Scenario.report) /\
                contains "'trigger'" w = true /\
                contains (str_path Scenario.event_file) w = true) /\
     (exists w, In w (warnings Scenario.report) /\
                contains "gfx" w = true)).
Proof.
  intros [_ [_ [_ [w [Hw _]]]]]. vm_compute in Hw. exact Hw.
Qed.

(** ** The analysis pass *)

Lemma analyze_mod_error {U : Unicode} (self : CK3ModManager) (fs : node) (mod_name : string) :
  analyze_mod self fs mod_name =
    [("error",
      VStr "'CK3ModManager' object has no attribute '_analyze_events'")].
Proof. reflexivity. Qed.

(** C3 does not hold of the code. [analyze_mod] asks for
    [self._analyze_events] first, which the class does not define; the
    handler turns the exception into a dictionary whose only key is
    [error]. So it is for the package of the scenario. *)
Theorem analyze_mod_scenario {U : Unicode} :
  analyze_mod Scenario.manager Scenario.fs "test_mod" =
    [("error",
      VStr "'CK3ModManager' object has no attribute '_analyze_events'")] /\
  keys (analyze_mod Scenario.manager Scenario.fs "test_mod") <>
    ["events"; "decisions"; "references"; "stats"].
Proof.
  rewrite analyze_mod_error. split; [reflexivity | discriminate].
Qed.

(** ** Statistics *)

Lemma node_induction (P : node -> Prop) :
  (forall name data, P (File name data)) ->
  (forall name children, Forall P children -> P (Dir name children)) ->
  forall n, P n.
Proof.
  intros HFile HDir. fix IH 1. intros [name data | name children].
  - apply HFile.
  - apply HDir. induction children as [|c children IHc]; constructor.
    + apply IH.
    + exact IHc.
Qed.

Lemma select_from_length (ext : string) :
  forall n here, List.length (select_from ext here n) = count_matching ext n.
Proof.
  induction n as [name data | name children IH] using node_induction;
    intros here; simpl; [reflexivity|].
  rewrite length_app, length_map.
  induction IH as [|c children Hc _ IHchildren]; simpl; [reflexivity|].
  rewrite length_app, Hc, <- IHchildren. unfold Path.
  destruct (ends_with ext (node_name c)); simpl; lia.
Qed.

Lemma glob_length (fs : node) (base folder : Path) (ext : string) :
  List.length (glob fs base folder ext) = matched fs (base ++ folder)%list ext.
Proof.
  unfold glob, matched.
  destruct (resolve fs (base ++ folder)%list) as [n|]; [|reflexivity].
  apply select_from_length.
Qed.

Lemma matched_absent (fs : node) (folder : Path) (ext : string) :
  exists_ fs folder = false -> matched fs folder ext = 0.
Proof.
  unfold exists_, matched.
  destruct (resolve fs folder); [discriminate | reflexivity].
Qed.

(** C7. For every directory tree, the statistics map each category to the
    number of entries that its convention selects: those below [events]
    whose name ends in [.txt], those below [common/decisions] whose name
    ends in [.txt] and, under the key [localizations], those below
    [localization] whose name ends in [.yml]. The count of a category whose
    folder is absent is zero. *)
Theorem collect_stats_counts :
  forall fs mod_path,
    _collect_stats fs mod_path =
      [ ("events", matched fs (mod_path ++ ["events"])%list ".txt");
        ("decisions",
          matched fs (mod_path ++ ["common"; "decisions"])%list ".txt");
        ("localizations",
          matched fs (mod_path ++ ["localization"])%list ".yml") ] /\
    (exists_ fs (mod_path ++ ["events"])%list = false ->
       get "events" (_collect_stats fs mod_path) = Some 0) /\
    (exists_ fs (mod_path ++ ["common"; "decisions"])%list = false ->
       get "decisions" (_collect_stats fs mod_path) = Some 0) /\
    (exists_ fs (mod_path ++ ["localization"])%list = false ->
       get "localizations" (_collect_stats fs mod_path) = Some 0).
Proof.
  intros fs mod_path. unfold _collect_stats. rewrite !glob_length.
  split; [reflexivity|].
  repeat split; intros Habsent; simpl; now rewrite matched_absent.
Qed.

Lemma collect_stats_counts_witness :
  exists_ Bare.fs (Bare.root ++ ["events"])%list = false /\
  exists_ Bare.fs (Bare.root ++ ["common"; "decisions"])%list = false /\
  exists_ Bare.fs (Bare.root ++ ["localization"])%list = false /\
  get "events" (_collect_stats Bare.fs Bare.root) = Some 0 /\
  get "decisions" (_collect_stats Bare.fs Bare.root) = Some 0 /\
  get "localizations" (_collect_stats Bare.fs Bare.root) = Some 0.
Proof.
  pose proof (collect_stats_counts Bare.fs Bare.root)
    as [_ [Hevents [Hdecisions Hlocalization]]].
  do 3 (split; [reflexivity|]).
  split; [apply Hevents | split; [apply Hdecisions | apply Hlocalization]];
    reflexivity.
Defined.

(** ** Matching *)

Lemma flatten_app (l1 l2 : list string) :
  flatten (l1 ++ l2) = flatten l1 ++ flatten l2.
Proof.
  induction l1 as [|ch l1 IH]; simpl; [reflexivity|].
  rewrite IH. clear IH. induction ch as [|c ch IH]; simpl; [reflexivity|].
  now rewrite IH.
Qed.

Lemma firstn_app_length {A : Type} (p q : list A) :
  firstn (List.length (p ++ q) - List.length q) (p ++ q) = p.
Proof.
  rewrite length_app.
  replace (List.length p + List.length q - List.length q)
    with (List.length p) by lia.
  induction p as [|x p IH]; simpl; [now destruct q | now rewrite IH].
Qed.

Lemma group1_found (id rest : list string) :
  group1 (mkFound (id ++ rest) rest rest) = flatten id.
Proof. unfold group1. simpl. now rewrite firstn_app_length. Qed.

(** No character is white space and a word character at once. *)
Lemma is_word_not_space {U : Unicode} (ch : string) :
  is_word ch = true -> is_space ch = false.
Proof.
  unfold is_word, is_space, class. intros Hw.
  assert (Htable : u_word ch = true -> u_space ch = false).
  { intros H. destruct (u_space ch) eqn:Hs; [|reflexivity].
    now rewrite (u_space_not_word ch Hs) in H. }
  destruct ch as [|c [|c' ch]]; try now apply Htable.
  destruct (in_range 0 127 c); [|now apply Htable].
  revert Hw. clear. destruct c as [[] [] [] [] [] [] [] []]; now vm_compute.
Qed.

(** A greedy run consumes characters of its class and hands the rest to
    the continuation. *)
Lemma greedy_inv {U : Unicode} (a : atom) (k : list string -> option found) :
  forall l m,
    greedy a k l = Some m ->
    exists p q,
      l = (p ++ q)%list /\ forallb (atom_matches a) p = true /\ k q = Some m.
Proof.
  induction l as [|ch l IH]; intros m; simpl.
  - intros H. now exists [], [].
  - destruct (atom_matches a ch) eqn:Hc.
    + destruct (greedy a k l) as [m'|] eqn:Hg.
      * intros [= <-]. destruct (IH m' eq_refl) as (p & q & -> & Hp & Hk).
        exists (ch :: p), q. simpl. now rewrite Hc, Hp.
      * intros H. now exists [], (ch :: l).
    + intros H. now exists [], (ch :: l).
Qed.

(** When the character after a run is not of the class and the
    continuation accepts what follows, the run is taken whole. *)
Lemma greedy_exact {U : Unicode} (a : atom) (k : list string -> option found) :
  forall p q m,
    forallb (atom_matches a) p = true ->
    (forall ch q', q = ch :: q' -> atom_matches a ch = false) ->
    k q = Some m ->
    greedy a k (p ++ q)%list = Some m.
Proof.
  induction p as [|ch p IH]; intros q m Hp Hq Hk; simpl.
  - destruct q as [|ch q']; simpl; [exact Hk|].
    now rewrite (Hq ch q' eq_refl).
  - simpl in Hp. apply andb_prop in Hp as [Hc Hp]. rewrite Hc.
    now rewrite (IH q m Hp Hq Hk).
Qed.

(** Before a continuation that accepts everything, the run stops only at
    a character that is not of the class. *)
Lemma greedy_longest {U : Unicode} (a : atom)
    (k : list string -> option found) :
  (forall l, k l <> None) ->
  forall l m,
    greedy a k l = Some m ->
    exists p q,
      l = (p ++ q)%list /\ forallb (atom_matches a) p = true /\
      (forall ch q', q = ch :: q' -> atom_matches a ch = false) /\
      k q = Some m.
Proof.
  intros Hk. induction l as [|ch l IH]; intros m; simpl.
  - intros H. exists [], []. repeat split; [discriminate | exact H].
  - destruct (atom_matches a ch) eqn:Hc.
    + destruct (greedy a k l) as [m'|] eqn:Hg.
      * intros [= <-].
        destruct (IH m' eq_refl) as (p & q & -> & Hp & Hq & Hkq).
        exists (ch :: p), q. simpl. now rewrite Hc, Hp.
      * exfalso. clear IH. revert Hg. clear Hc.
        induction l as [|ch' l IH]; simpl.
        -- apply Hk.
        -- destruct (atom_matches a ch'); [|apply Hk].
           destruct (greedy a k l); [discriminate | apply Hk].
    + intros H. exists [], (ch :: l). repeat split; [|exact H].
      intros ch0 q' [= <- _]. exact Hc.
Qed.

Lemma exec_one_inv {U : Unicode} (a : atom) (r : regex) (l : list string)
    (m : found) :
  exec (One a :: r) l = Some m ->
  exists ch l', l = ch :: l' /\ atom_matches a ch = true /\ exec r l' = Some m.
Proof.
  simpl. destruct l as [|ch l']; [discriminate|].
  destruct (atom_matches a ch) eqn:Hc; [|discriminate].
  intros H. now exists ch, l'.
Qed.

Lemma exec_star_inv {U : Unicode} (a : atom) (r : regex) (l : list string)
    (m : found) :
  exec (Star a :: r) l = Some m ->
  exists p q,
    l = (p ++ q)%list /\ forallb (atom_matches a) p = true /\
    exec r q = Some m.
Proof. apply greedy_inv. Qed.

Lemma exec_plus_inv {U : Unicode} (a : atom) (r : regex) (l : list string)
    (m : found) :
  exec (Plus a :: r) l = Some m ->
  exists p q,
    l = (p ++ q)%list /\ p <> [] /\ forallb (atom_matches a) p = true /\
    exec r q = Some m.
Proof.
  simpl. destruct l as [|ch l']; [discriminate|].
  destruct (atom_matches a ch) eqn:Hc; [|discriminate].
  intros H. destruct (greedy_inv _ _ _ _ H) as (p & q & -> & Hp & Hq).
  exists (ch :: p), q. simpl. rewrite Hc, Hp.
  repeat split; [discriminate | exact Hq].
Qed.

(** A literal word matches its own letters. *)
Lemma exec_lit {U : Unicode} (w : string) (r : regex) :
  forall l m,
    exec (lit w ++ r)%list l = Some m <->
    exists l', l = (letters w ++ l')%list /\ exec r l' = Some m.
Proof.
  induction w as [|c w IH]; intros l m; simpl lit; simpl letters; simpl app.
  - split; [intros H; now exists l | now intros (l' & -> & H)].
  - split.
    + intros H. destruct (exec_one_inv _ _ _ _ H) as (ch & l1 & -> & Hc & H1).
      simpl in Hc. apply String.eqb_eq in Hc. subst ch.
      apply IH in H1 as (l' & -> & H'). now exists l'.
    + intros (l' & -> & H').
      change (exec (One (Lit c) :: lit w ++ r)%list
                   (String c "" :: letters w ++ l')%list)
        with (if (String c "" =? String c "")%string
              then exec (lit w ++ r)%list (letters w ++ l')%list
              else None).
      rewrite String.eqb_refl. apply IH. now exists l'.
Qed.

Lemma finditer_from_skip {U : Unicode} (r : regex) :
  forall p l,
    finditer_from r (List.length p) (p ++ l)%list = finditer_from r 0 l.
Proof.
  induction p as [|ch p IH]; intros l; simpl.
  - now destruct l.
  - apply IH.
Qed.

(** ** The reference resolver *)

Lemma not_space_equals {U : Unicode} : is_space "=" = false.
Proof. reflexivity. Qed.

Lemma not_word_dot {U : Unicode} : is_word "." = false.
Proof. reflexivity. Qed.

(** [(\w+\.\d+)] on an identifier that takes every digit there is *)
Lemma exec_dotted_id_exact {U : Unicode} (id rest : list string) :
  dotted_chars id ->
  (forall ch rest', rest = ch :: rest' -> is_digit ch = false) ->
  exec dotted_id (id ++ rest)%list = Some (mkFound (id ++ rest)%list rest rest).
Proof.
  intros (w & d & -> & Hw0 & Hw & Hd0 & Hd) Hrest.
  unfold dotted_id.
  change (exec [Open; Plus Word; One (Lit "."); Plus Digit; Close]
               ((w ++ ["."] ++ d) ++ rest)%list)
    with (option_map (set_open ((w ++ ["."] ++ d) ++ rest)%list)
            (exec [Plus Word; One (Lit "."); Plus Digit; Close]
                  ((w ++ ["."] ++ d) ++ rest)%list)).
  assert (H : exec [Plus Word; One (Lit "."); Plus Digit; Close]
                   ((w ++ ["."] ++ d) ++ rest)%list
              = Some (mkFound rest rest rest)); [|now rewrite H].
  rewrite <- app_assoc.
  destruct w as [|c w]; [congruence|]. simpl in Hw.
  apply andb_prop in Hw as [Hc Hw].
  change (exec (Plus Word :: [One (Lit "."); Plus Digit; Close])
               ((c :: w) ++ (["."] ++ d) ++ rest)%list)
    with (if atom_matches Word c
          then greedy Word (exec [One (Lit "."); Plus Digit; Close])
                      (w ++ (["."] ++ d) ++ rest)%list
          else None).
  simpl atom_matches. rewrite Hc.
  apply greedy_exact; [exact Hw | |].
  { intros ch q' [= <- _]. apply not_word_dot. }
  destruct d as [|c' d]; [congruence|]. simpl in Hd.
  apply andb_prop in Hd as [Hc' Hd].
  change (exec [One (Lit "."); Plus Digit; Close]
               ((["."] ++ c' :: d) ++ rest)%list)
    with (if atom_matches Digit c'
          then greedy Digit (exec [Close]) (d ++ rest)%list
          else None).
  simpl atom_matches. rewrite Hc'.
  apply greedy_exact; [exact Hd | exact Hrest | reflexivity].
Qed.

Lemma exec_dotted_id_inv {U : Unicode} (l : list string) (m : found) :
  exec dotted_id l = Some m ->
  exists id,
    l = (id ++ m_end m)%list /\ dotted_chars id /\
    (forall ch rest', m_end m = ch :: rest' -> is_digit ch = false) /\
    m = mkFound l (m_end m) (m_end m).
Proof.
  unfold dotted_id.
  change (exec [Open; Plus Word; One (Lit "."); Plus Digit; Close] l)
    with (option_map (set_open l)
            (exec [Plus Word; One (Lit "."); Plus Digit; Close] l)).
  destruct (exec [Plus Word; One (Lit "."); Plus Digit; Close] l)
    as [m1|] eqn:H1; [|discriminate].
  intros [= <-].
  destruct (exec_plus_inv _ _ _ _ H1) as (w & l1 & -> & Hw0 & Hw & H2).
  destruct (exec_one_inv _ _ _ _ H2) as (ch & l2 & -> & Hch & H3).
  simpl in Hch. apply String.eqb_eq in Hch. subst ch.
  change (exec [Plus Digit; Close] l2)
    with (match l2 with
          | ch :: l' =>
              if atom_matches Digit ch then greedy Digit (exec [Close]) l'
              else None
          | [] => None
          end) in H3.
  destruct l2 as [|c' l2]; [discriminate|].
  destruct (atom_matches Digit c') eqn:Hc'; [|discriminate].
  destruct (greedy_longest Digit (exec [Close])
              ltac:(intros l0; discriminate) _ _ H3)
    as (d & rest & -> & Hd & Hrest & Hclose).
  injection Hclose as <-. simpl.
  exists (w ++ ["."] ++ c' :: d)%list. repeat split.
  - now rewrite <- !app_assoc.
  - exists w, (c' :: d). repeat split; try assumption; [discriminate|].
    change (forallb is_digit (c' :: d))
      with (is_digit c' && forallb is_digit d).
    change (atom_matches Digit c') with (is_digit c') in Hc'.
    change (forallb (atom_matches Digit) d) with (forallb is_digit d) in Hd.
    now rewrite Hc', Hd.
  - exact Hrest.
Qed.

(** The pattern matches exactly where a cross-reference begins, and it
    captures the identifier. *)
Lemma reference_at_exec {U : Unicode} (l id rest : list string) :
  reference_at l id rest ->
  exec trigger_event_re l = Some (mkFound (id ++ rest)%list rest rest).
Proof.
  intros (ws1 & ws2 & -> & Hws1 & Hws2 & Hid & Hrest).
  unfold trigger_event_re, assign. rewrite <- app_assoc.
  apply exec_lit. eexists. split; [reflexivity|].
  change (exec ([Star Space; One (Lit "="); Star Space] ++ dotted_id)%list
               (ws1 ++ ["="] ++ ws2 ++ id ++ rest)%list)
    with (greedy Space (exec (One (Lit "=") :: Star Space :: dotted_id))
                 (ws1 ++ ["="] ++ ws2 ++ id ++ rest)%list).
  apply greedy_exact; [exact Hws1 | |].
  { intros ch q' [= <- _]. apply not_space_equals. }
  change (exec (One (Lit "=") :: Star Space :: dotted_id)
               (["="] ++ ws2 ++ id ++ rest)%list)
    with (greedy Space (exec dotted_id) (ws2 ++ id ++ rest)%list).
  apply greedy_exact; [exact Hws2 | |].
  - destruct Hid as (w & d & -> & Hw0 & Hw & _).
    destruct w as [|c w]; [congruence|]. simpl in Hw.
    apply andb_prop in Hw as [Hc _].
    intros ch q' [= <- _]. now apply is_word_not_space.
  - now apply exec_dotted_id_exact.
Qed.

Lemma exec_reference_at {U : Unicode} (l : list string) (m : found) :
  exec trigger_event_re l = Some m ->
  exists id,
    reference_at l id (m_end m) /\
    m = mkFound (id ++ m_end m)%list (m_end m) (m_end m).
Proof.
  unfold trigger_event_re, assign. rewrite <- app_assoc.
  intros H. apply (proj1 (exec_lit "trigger_event" _ _ _)) in H.
  destruct H as (l1 & -> & H).
  destruct (exec_star_inv _ _ _ _ H) as (ws1 & q & -> & Hws1 & H1).
  destruct (exec_one_inv _ _ _ _ H1) as (ch & q' & -> & Hch & H2).
  simpl in Hch. apply String.eqb_eq in Hch. subst ch.
  destruct (exec_star_inv _ _ _ _ H2) as (ws2 & l3 & -> & Hws2 & H3).
  destruct (exec_dotted_id_inv _ _ H3) as (id & Hl3 & Hid & Hrest & Hm).
  exists id. split.
  - exists ws1, ws2. rewrite Hl3 at 1. now repeat split.
  - rewrite Hm. now rewrite Hl3 at 1.
Qed.

Lemma reference_at_functional {U : Unicode} (l id id' rest rest' : list string) :
  reference_at l id rest -> reference_at l id' rest' ->
  id' = id /\ rest' = rest.
Proof.
  intros H H'. apply reference_at_exec in H, H'. rewrite H in H'.
  injection H' as Hid Hrest. subst rest'. split; [|reflexivity].
  now apply app_inv_tail in Hid.
Qed.

Lemma references_in_unique {U : Unicode} :
  forall l ids,
    references_in l ids ->
    forall ids', references_in l ids' -> ids' = ids.
Proof.
  induction 1 as [| ch l ids Hnone _ IH | l id rest ids Hat _ IH];
    intros ids' H'.
  - inversion H' as [| |l0 id0 rest0 ids0 Hat0]; subst; [reflexivity|].
    destruct Hat0 as (ws1 & ws2 & Hnil & _). discriminate Hnil.
  - inversion H' as [| |l0 id0 rest0 ids0 Hat0]; subst.
    + now apply IH.
    + now contradiction (Hnone _ _ Hat0).
  - inversion H' as [|ch0 l0 ids0 Hnone0 |l0 id0 rest0 ids0 Hat0]; subst.
    + destruct Hat as (ws1 & ws2 & Hnil & _). discriminate Hnil.
    + now contradiction (Hnone0 _ _ Hat).
    + destruct (reference_at_functional _ _ _ _ _ Hat Hat0) as [-> ->].
      f_equal. now apply IH.
Qed.

Lemma references_in_dotted {U : Unicode} :
  forall l ids, references_in l ids -> Forall dotted ids.
Proof.
  induction 1 as [| ch l ids _ _ IH | l id rest ids Hat _ IH];
    [constructor | exact IH |].
  constructor; [|exact IH].
  destruct Hat as (_ & _ & _ & _ & _ & Hid & _). now exists id.
Qed.

(** What [finditer] yields for the pattern are the cross-references of the
    text, in document order. *)
Lemma finditer_references {U : Unicode} :
  forall n l,
    List.length l <= n ->
    references_in l (map group1 (finditer_from trigger_event_re 0 l)).
Proof.
  induction n as [|n IH]; intros l Hlen.
  - destruct l; [|simpl in Hlen; lia]. constructor.
  - destruct l as [|ch l]; [constructor|].
    simpl in Hlen. cbn [finditer_from].
    destruct (exec trigger_event_re (ch :: l)) as [m|] eqn:Hm.
    + destruct (exec_reference_at _ _ Hm) as (id & Hat & Hfound).
      assert (Hpre : exists p, l = (p ++ m_end m)%list).
      { destruct Hat as (ws1 & ws2 & Hl & _). simpl in Hl.
        injection Hl as _ ->.
        exists (letters "rigger_event" ++ ws1 ++ ["="] ++ ws2 ++ id)%list.
        now rewrite <- !app_assoc. }
      destruct Hpre as [p Hp].
      assert (Hskip : List.length l - List.length (m_end m) = List.length p).
      { rewrite Hp at 1. rewrite length_app. lia. }
      rewrite Hskip.
      assert (Hnext : finditer_from trigger_event_re (List.length p) l
                      = finditer_from trigger_event_re 0 (m_end m))
        by (rewrite Hp; apply finditer_from_skip).
      rewrite Hnext. cbn [map].
      assert (Hgroup : group1 m = flatten id)
        by (rewrite Hfound; apply group1_found).
      rewrite Hgroup.
      apply (refs_hit _ _ _ _ Hat). apply IH.
      rewrite Hp, length_app in Hlen. lia.
    + apply refs_miss; [|apply IH; lia].
      intros id rest Hat. apply reference_at_exec in Hat. congruence.
Qed.

(** Two calls for the same target give two records. *)
Example extract_references_twice {U : Unicode} :
  _extract_references Scenario.manager
    "effect = { trigger_event = ns.12 trigger_event=ns.12 }" =
    [ mkReference "event" "ns.12"; mkReference "event" "ns.12" ].
Proof. reflexivity. Qed.

(** C6. For every document text there is exactly one list of the
    identifiers of its cross-references in document order, a
    cross-reference being the word [trigger_event], white space, [=], white
    space and an identifier word.number. Every run of the resolver,
    whatever the manager, returns one record per element of that list, in
    the same order and without merging equal ones: its kind is [event] and
    its identifier is that of the cross-reference. So the result is fixed
    by the text, and a second run gives the same sequence. *)
Theorem extract_references_per_occurrence {U : Unicode} :
  forall content,
    exists ids,
      references_in (chars content) ids /\
      (forall ids', references_in (chars content) ids' -> ids' = ids) /\
      (forall self,
         _extract_references self content = map (mkReference "event") ids) /\
      Forall dotted ids.
Proof.
  intros content.
  exists (map group1 (finditer trigger_event_re content)).
  assert (Hrefs : references_in (chars content)
                    (map group1 (finditer trigger_event_re content)))
    by now apply (finditer_references (List.length (chars content))).
  split; [exact Hrefs|].
  split; [intros ids'; now apply references_in_unique|].
  split; [|exact (references_in_dotted _ _ Hrefs)].
  intros self. unfold _extract_references.
  now rewrite fold_left_append, map_map.
Qed.

(** * Further properties *)

(** ** What a validation pass reports *)

(** X1. Whatever the manager, the file system and the mod name, the report
    of [validate_mod] is invalid, has exactly one error and has no warning:
    a mod that is missing gives "Mod not found", and a pass over an existing
    mod always ends in the handler. *)
Theorem validate_mod_never_valid {U : Unicode} :
  forall self fs mod_name,
    is_valid (validate_mod self fs mod_name) = false /\
    List.length (errors (validate_mod self fs mod_name)) = 1 /\
    warnings (validate_mod self fs mod_name) = [].
Proof.
  intros self fs mod_name.
  destruct (exists_ fs (mod_dir self mod_name)) eqn:Hexists.
  - destruct (validate_mod_try_existing self fs mod_name Hexists) as [e He].
    unfold validate_mod. rewrite He. now repeat split.
  - unfold validate_mod, validate_mod_try. rewrite Hexists. now repeat split.
Qed.

Lemma validate_events_appends {U : Unicode} (content : string) (file_path : Path)
    (errors warnings : list string) :
  _validate_events content file_path errors warnings =
    ((errors ++ event_errors content file_path)%list, warnings).
Proof.
  unfold event_errors. now rewrite !validate_events_eq.
Qed.

Lemma validate_event_files_result {U : Unicode} :
  forall fs files contents errors warnings,
    Forall2 (fun file content => _read_file fs file = Ok content)
            files contents ->
    validate_event_files fs files errors warnings =
      Ok ((errors ++
           concat (map (fun '(file, content) => event_errors content file)
                       (combine files contents)))%list,
          warnings).
Proof.
  intros fs files contents errors warnings Hread. revert errors.
  induction Hread as [|file content files contents Hfile _ IH];
    intros errors; simpl.
  - now rewrite app_nil_r.
  - rewrite Hfile. simpl. rewrite validate_events_appends, IH.
    now rewrite <- app_assoc.
Qed.

(** X2. When every event file can be read, the first loop of the content
    check succeeds: to the errors it was given it has appended the errors of
    each file, file after file in the order of the listing, and it has left
    the warnings as they were. *)
Theorem validate_event_files_accumulates {U : Unicode} :
  forall fs files contents errors warnings,
    Forall2 (fun file content => _read_file fs file = Ok content)
            files contents ->
    validate_event_files fs files errors warnings =
      Ok ((errors ++
           concat (map (fun '(file, content) => event_errors content file)
                       (combine files contents)))%list,
          warnings).
Proof. exact validate_event_files_result. Qed.

Lemma validate_event_files_accumulates_witness :
  validate_event_files Scenario.fs [Scenario.event_file]
                       ["earlier error"] ["earlier warning"] =
    Ok (["earlier error"], ["earlier warning"]).
Proof.
  apply (validate_event_files_accumulates Scenario.fs [Scenario.event_file]
           [Scenario.event_text] ["earlier error"] ["earlier warning"]).
  repeat constructor.
Defined.

Lemma readable_contents (fs : node) (files : list Path) :
  (forall f, In f files -> exists content, _read_file fs f = Ok content) ->
  exists contents,
    Forall2 (fun file content => _read_file fs file = Ok content)
            files contents.
Proof.
  induction files as [|f files IH]; intros Hread.
  - exists []. constructor.
  - destruct (Hread f (or_introl eq_refl)) as [content Hf].
    destruct IH as [contents Hfiles]; [intros g Hg; apply Hread; now right|].
    exists (content :: contents). now constructor.
Qed.

Lemma validate_mod_reaches_references {U : Unicode} (self : CK3ModManager) (fs : node)
    (mod_name : string) :
  exists_ fs (mod_dir self mod_name) = true ->
  (forall f, In f (glob fs (mod_dir self mod_name) ["events"] ".txt") ->
     exists content, _read_file fs f = Ok content) ->
  glob fs (mod_dir self mod_name) ["common"; "decisions"] ".txt" = [] ->
  validate_mod self fs mod_name =
    mkModValidation false
      ["'CK3ModManager' object has no attribute '_validate_references'"] [].
Proof.
  intros Hexists Hevents Hdecisions.
  destruct (readable_contents _ _ Hevents) as [contents Hread].
  unfold validate_mod, validate_mod_try. rewrite Hexists. cbn [negb].
  destruct (_validate_structure fs (mod_dir self mod_name) [] [])
    as [errors warnings].
  unfold _validate_content.
  rewrite (validate_event_files_result _ _ _ errors warnings Hread).
  rewrite Hdecisions. reflexivity.
Qed.

(** X3. For a mod folder that exists, whose event files can all be read and
    which has no decision file, the report is
    (False, ["'CK3ModManager' object has no attribute
    '_validate_references'"], []): the findings of the structure check and
    of the event files are lost. *)
Theorem validate_mod_without_decisions {U : Unicode} :
  forall self fs mod_name,
    exists_ fs (mod_dir self mod_name) = true ->
    (forall f, In f (glob fs (mod_dir self mod_name) ["events"] ".txt") ->
       exists content, _read_file fs f = Ok content) ->
    glob fs (mod_dir self mod_name) ["common"; "decisions"] ".txt" = [] ->
    validate_mod self fs mod_name =
      mkModValidation false
        ["'CK3ModManager' object has no attribute '_validate_references'"] [].
Proof.
  intros self fs mod_name. apply validate_mod_reaches_references.
Qed.

Lemma validate_mod_without_decisions_witness :
  validate_mod (mkManager ["game"] ["mod"]) Bare.fs "bare" =
    mkModValidation false
      ["'CK3ModManager' object has no attribute '_validate_references'"] [].
Proof.
  apply validate_mod_without_decisions.
  - reflexivity.
  - intros f [].
  - reflexivity.
Defined.

(** X4. For a mod folder that exists, whose event files can all be read and
    whose first decision file can be read, the report is
    (False, ["'CK3ModManager' object has no attribute
    '_validate_decisions'"], []): no decision file is ever checked. *)
Theorem validate_mod_with_decision_file {U : Unicode} :
  forall self fs mod_name file rest content,
    exists_ fs (mod_dir self mod_name) = true ->
    (forall f, In f (glob fs (mod_dir self mod_name) ["events"] ".txt") ->
       exists content, _read_file fs f = Ok content) ->
    glob fs (mod_dir self mod_name) ["common"; "decisions"] ".txt"
      = file :: rest ->
    _read_file fs file = Ok content ->
    validate_mod self fs mod_name =
      mkModValidation false
        ["'CK3ModManager' object has no attribute '_validate_decisions'"] [].
Proof.
  intros self fs mod_name file rest content Hexists Hevents Hdecisions Hfile.
  destruct (readable_contents _ _ Hevents) as [contents Hread].
  unfold validate_mod, validate_mod_try. rewrite Hexists. cbn [negb].
  destruct (_validate_structure fs (mod_dir self mod_name) [] [])
    as [errors warnings].
  unfold _validate_content.
  rewrite (validate_event_files_result _ _ _ errors warnings Hread).
  rewrite Hdecisions. simpl. rewrite Hfile. reflexivity.
Qed.

Lemma validate_mod_with_decision_file_witness :
  validate_mod Scenario.manager Scenario.fs "test_mod" =
    mkModValidation false
      ["'CK3ModManager' object has no attribute '_validate_decisions'"] [].
Proof.
  apply (validate_mod_with_decision_file Scenario.manager Scenario.fs
           "test_mod" Scenario.decision_file [] Scenario.decision_text).
  - reflexivity.
  - intros f [<- | []]. now exists Scenario.event_text.
  - reflexivity.
  - reflexivity.
Defined.

(** ** The reference index *)

Lemma analyze_event_files_started {U : Unicode} (self : CK3ModManager) (fs : node) :
  forall files contents found_so_far,
    Forall2 (fun file content => _read_file fs file = Ok content)
            files contents ->
    analyze_event_files self fs files [("events", found_so_far)] =
      Ok [("events",
           (found_so_far
            ++ flat_map (_extract_references self) contents)%list)].
Proof.
  intros files contents found_so_far Hread. revert found_so_far.
  induction Hread as [|file content files contents Hfile _ IH];
    intros found_so_far; simpl.
  - now rewrite app_nil_r.
  - rewrite Hfile. simpl. rewrite IH. now rewrite <- app_assoc.
Qed.

(** X5. When every event file can be read, the reference index has no key
    at all for a mod without event files and otherwise the one key
    [events], whose value is the references of the event files put end to
    end in the order of the listing, a file without references
    contributing nothing. *)
Theorem analyze_references_index {U : Unicode} :
  forall self fs mod_path contents,
    Forall2 (fun file content => _read_file fs file = Ok content)
            (glob fs mod_path ["events"] ".txt") contents ->
    _analyze_references self fs mod_path =
      Ok (match contents with
          | [] => []
          | _ :: _ => [("events", flat_map (_extract_references self) contents)]
          end).
Proof.
  intros self fs mod_path contents Hread. unfold _analyze_references.
  destruct Hread as [|file content files contents Hfile Hread];
    [reflexivity|].
  simpl. rewrite Hfile. simpl.
  now rewrite (analyze_event_files_started self fs files contents).
Qed.

Lemma analyze_references_index_witness :
  _analyze_references Scenario.manager Scenario.fs ["mod"; "test_mod"] =
    Ok [("events", [])] /\
  _analyze_references Scenario.manager Bare.fs Bare.root = Ok [].
Proof.
  split.
  - apply (analyze_references_index Scenario.manager Scenario.fs
             ["mod"; "test_mod"] [Scenario.event_text]).
    repeat constructor.
  - apply (analyze_references_index Scenario.manager Bare.fs Bare.root []).
    constructor.
Defined.

(** X6. When reading an event file fails, the reference index is not
    built: the exception of the first file that cannot be read leaves
    [_analyze_references], whatever was collected before. *)
Theorem analyze_references_read_failure {U : Unicode} :
  forall self fs mod_path pre file post e,
    glob fs mod_path ["events"] ".txt" = (pre ++ file :: post)%list ->
    (forall f, In f pre -> exists content, _read_file fs f = Ok content) ->
    _read_file fs file = Raise e ->
    _analyze_references self fs mod_path = Raise e.
Proof.
  intros self fs mod_path pre file post e Hglob Hpre Hfile.
  unfold _analyze_references. rewrite Hglob. clear Hglob.
  generalize (@nil (string * list Reference)) as references.
  induction pre as [|f pre IH]; intros references; simpl.
  - now rewrite Hfile.
  - destruct (Hpre f (or_introl eq_refl)) as [content ->]. simpl.
    apply IH. intros g Hg. apply Hpre. now right.
Qed.

Lemma analyze_references_read_failure_witness :
  _analyze_references Broken.manager Broken.fs ["mod"; "broken"] =
    Raise Broken.decode_error.
Proof.
  apply (analyze_references_read_failure Broken.manager Broken.fs
           ["mod"; "broken"] [] ["mod"; "broken"; "events"; "a.txt"]
           [["mod"; "broken"; "events"; "b.txt"]]).
  - reflexivity.
  - intros f [].
  - reflexivity.
Defined.

(** ** Which files a pass looks at *)

Lemma select_from_inside (ext : string) :
  forall n here p,
    In p (select_from ext here n) ->
    exists rel name,
      p = (here ++ rel ++ [name])%list /\ ends_with ext name = true.
Proof.
  induction n as [name data | name children IH] using node_induction;
    intros here p; simpl; [tauto|].
  rewrite in_app_iff, in_map_iff, in_flat_map.
  intros [(c & <- & Hc) | (c & Hc & Hp)].
  - apply filter_In in Hc as [_ Hext]. now exists [], (node_name c).
  - rewrite Forall_forall in IH.
    destruct (IH c Hc _ _ Hp) as (rel & leaf & -> & Hext).
    exists (node_name c :: rel), leaf. split; [|exact Hext].
    now rewrite <- app_assoc.
Qed.

(** X7. Every path that a listing [<folder>/**/*<ext>] yields lies below
    the folder and its last component ends in the extension: the content
    check and the statistics look at nothing else. *)
Theorem glob_inside_folder :
  forall fs base folder ext p,
    In p (glob fs base folder ext) ->
    exists rel name,
      p = (base ++ folder ++ rel ++ [name])%list /\
      ends_with ext name = true.
Proof.
  intros fs base folder ext p. unfold glob.
  destruct (resolve fs (base ++ folder)%list) as [n|]; [|intros []].
  intros Hin. destruct (select_from_inside _ _ _ _ Hin) as (rel & name & -> & H).
  exists rel, name. split; [|exact H]. now rewrite <- app_assoc.
Qed.

Lemma glob_inside_folder_witness :
  exists rel name,
    Scenario.event_file = (["mod"; "test_mod"] ++ ["events"] ++ rel ++ [name])%list /\
    ends_with ".txt" name = true.
Proof.
  apply (glob_inside_folder Scenario.fs ["mod"; "test_mod"] ["events"] ".txt").
  simpl. now left.
Defined.

Lemma find_some_in {A : Type} (f : A -> bool) (l : list A) (x : A) :
  find f l = Some x -> In x l.
Proof. intros H. now apply find_some in H. Qed.

Lemma select_from_finds (ext : string) :
  forall rel n here name children c,
    resolve n rel = Some (Dir name children) ->
    In c children ->
    ends_with ext (node_name c) = true ->
    In (here ++ rel ++ [node_name c])%list (select_from ext here n).
Proof.
  induction rel as [|x rel IH]; intros n here name children c; simpl.
  - intros [= ->] Hc Hext. simpl. apply in_or_app. left.
    apply in_map_iff. exists c. split; [reflexivity|].
    apply filter_In. now split.
  - destruct n as [|dname dchildren]; [discriminate|].
    destruct (find (fun y => node_name y =? x) dchildren) as [y|] eqn:Hfind;
      [|discriminate].
    intros Hres Hc Hext. simpl. apply in_or_app. right.
    apply in_flat_map. exists y. split; [exact (find_some_in _ _ _ Hfind)|].
    apply find_some in Hfind as [_ Hname]. apply String.eqb_eq in Hname.
    subst x.
    replace (here ++ node_name y :: rel ++ [node_name c])%list
      with ((here ++ [node_name y]) ++ rel ++ [node_name c])%list
      by now rewrite <- app_assoc.
    exact (IH y _ _ _ _ Hres Hc Hext).
Qed.

(** X8. The listing is recursive and complete: an entry whose name ends in
    the extension, in the folder itself or in a directory at any depth
    below it, is among the paths of the listing, files and directories
    alike. *)
Theorem glob_finds_nested :
  forall fs base folder ext rel name children c,
    resolve fs (base ++ folder ++ rel)%list = Some (Dir name children) ->
    In c children ->
    ends_with ext (node_name c) = true ->
    In (base ++ folder ++ rel ++ [node_name c])%list (glob fs base folder ext).
Proof.
  intros fs base folder ext rel name children c Hres Hc Hext.
  unfold glob.
  assert (Hsplit : exists n,
             resolve fs (base ++ folder)%list = Some n /\
             resolve n rel = Some (Dir name children)).
  { rewrite app_assoc in Hres. revert Hres.
    generalize (base ++ folder)%list as p. intros p. revert fs.
    induction p as [|x p IH]; intros fs Hres; simpl in *.
    - now exists fs.
    - destruct fs as [|dname dchildren]; [discriminate|].
      destruct (find (fun y => node_name y =? x) dchildren) as [y|];
        [|discriminate].
      now apply IH. }
  destruct Hsplit as (n & -> & Hrel).
  rewrite (app_assoc base folder).
  exact (select_from_finds ext rel n _ _ _ _ Hrel Hc Hext).
Qed.

Lemma glob_finds_nested_witness :
  In ["mod"; "nested"; "events"; "chapter"; "one"; "deep.txt"]
     (glob Nested.fs ["mod"; "nested"] ["events"] ".txt").
Proof.
  apply (glob_finds_nested Nested.fs ["mod"; "nested"] ["events"] ".txt"
           ["chapter"; "one"] "one" [Nested.deep_file] Nested.deep_file).
  - reflexivity.
  - now left.
  - reflexivity.
Defined.

(** ** When a field counts as present *)

Lemma search_from_sound {U : Unicode} (r : regex) :
  forall l m,
    search_from r l = Some m ->
    exists pre rest, l = (pre ++ rest)%list /\ exec r rest = Some m.
Proof.
  induction l as [|ch l IH]; intros m; simpl.
  - destruct (exec r []) as [m'|] eqn:H; [|discriminate].
    intros [= <-]. now exists [], [].
  - destruct (exec r (ch :: l)) as [m'|] eqn:H.
    + intros [= <-]. now exists [], (ch :: l).
    + intros Hs. destruct (IH _ Hs) as (pre & rest & -> & Hrest).
      now exists (ch :: pre), rest.
Qed.

Lemma search_from_complete {U : Unicode} (r : regex) :
  forall pre rest,
    matches r rest -> exists m, search_from r (pre ++ rest)%list = Some m.
Proof.
  induction pre as [|ch pre IH]; intros rest [m Hm]; simpl.
  - destruct rest; simpl; rewrite Hm; now exists m.
  - destruct (exec r (ch :: (pre ++ rest)%list)) as [m'|]; [now exists m'|].
    apply IH. now exists m.
Qed.

Lemma search_found_iff {U : Unicode} (r : regex) (s : string) :
  search r s <> None <->
  exists pre rest, chars s = (pre ++ rest)%list /\ matches r rest.
Proof.
  unfold search. split.
  - destruct (search_from r (chars s)) as [m|] eqn:H; [intros _|congruence].
    destruct (search_from_sound _ _ _ H) as (pre & rest & Hs & Hrest).
    exists pre, rest. split; [exact Hs | now exists m].
  - intros (pre & rest & -> & Hrest).
    destruct (search_from_complete r pre rest Hrest) as [m ->]. discriminate.
Qed.

Lemma greedy_some {U : Unicode} (a : atom) (k : list string -> option found)
    (l : list string) :
  (exists m, k l = Some m) -> exists m, greedy a k l = Some m.
Proof.
  intros [m Hm]. destruct l as [|ch l]; simpl; [now exists m|].
  destruct (atom_matches a ch); [|now exists m].
  destruct (greedy a k l) as [m'|]; [now exists m' | now exists m].
Qed.

Lemma greedy_complete {U : Unicode} (a : atom)
    (k : list string -> option found) :
  forall p q,
    forallb (atom_matches a) p = true ->
    (exists m, k q = Some m) ->
    exists m, greedy a k (p ++ q)%list = Some m.
Proof.
  induction p as [|ch p IH]; intros q Hp Hq; simpl.
  - now apply greedy_some.
  - simpl in Hp. apply andb_prop in Hp as [Hc Hp]. rewrite Hc.
    destruct (IH q Hp Hq) as [m ->]. now exists m.
Qed.

Lemma matches_star {U : Unicode} (a : atom) (r : regex) (l : list string) :
  matches (Star a :: r) l <->
  exists p q,
    l = (p ++ q)%list /\ forallb (atom_matches a) p = true /\ matches r q.
Proof.
  unfold matches. simpl. split.
  - intros [m H]. destruct (greedy_inv _ _ _ _ H) as (p & q & -> & Hp & Hq).
    exists p, q. repeat split; [exact Hp | now exists m].
  - intros (p & q & -> & Hp & Hq). now apply greedy_complete.
Qed.

Lemma matches_plus {U : Unicode} (a : atom) (r : regex) (l : list string) :
  matches (Plus a :: r) l <->
  exists p q,
    l = (p ++ q)%list /\ p <> [] /\ forallb (atom_matches a) p = true /\
    matches r q.
Proof.
  unfold matches. split.
  - intros [m H].
    destruct (exec_plus_inv _ _ _ _ H) as (p & q & -> & Hp0 & Hp & Hq).
    exists p, q. repeat split; [exact Hp0 | exact Hp | now exists m].
  - intros (p & q & -> & Hp0 & Hp & Hq).
    destruct p as [|ch p]; [congruence|]. simpl in Hp |- *.
    apply andb_prop in Hp as [Hc Hp]. rewrite Hc.
    now apply greedy_complete.
Qed.

Lemma matches_one {U : Unicode} (a : atom) (r : regex) (l : list string) :
  matches (One a :: r) l <->
  exists ch l', l = ch :: l' /\ atom_matches a ch = true /\ matches r l'.
Proof.
  unfold matches. split.
  - intros [m H].
    destruct (exec_one_inv _ _ _ _ H) as (ch & l' & -> & Hc & H').
    exists ch, l'. repeat split; [exact Hc | now exists m].
  - intros (ch & l' & -> & Hc & H'). simpl. now rewrite Hc.
Qed.

Lemma matches_group {U : Unicode} (r : regex) (l : list string) :
  (matches (Open :: r) l <-> matches r l) /\
  (matches (Close :: r) l <-> matches r l).
Proof.
  unfold matches. simpl.
  split; split; intros [m H];
    destruct (exec r l) as [m'|]; simpl in *; try discriminate; eauto.
Qed.

Lemma matches_assign {U : Unicode} (name : string) (tail : regex)
    (l : list string) :
  matches (assign name ++ tail)%list l <->
  exists ws1 ws2 rest,
    l = (letters name ++ ws1 ++ ["="] ++ ws2 ++ rest)%list /\
    forallb is_space ws1 = true /\
    forallb is_space ws2 = true /\
    matches tail rest.
Proof.
  unfold assign. rewrite <- app_assoc. simpl app.
  split.
  - intros [m H]. apply exec_lit in H as (l1 & -> & H1).
    assert (M1 : matches (Star Space :: One (Lit "=") :: Star Space :: tail) l1)
      by now exists m.
    apply matches_star in M1 as (ws1 & q & -> & Hws1 & M2).
    apply matches_one in M2 as (ch & q' & -> & Hc & M3).
    simpl in Hc. apply String.eqb_eq in Hc. subst ch.
    apply matches_star in M3 as (ws2 & rest & -> & Hws2 & M4).
    now exists ws1, ws2, rest.
  - intros (ws1 & ws2 & rest & -> & Hws1 & Hws2 & Htail).
    assert (M : matches (Star Space :: One (Lit "=") :: Star Space :: tail)
                        (ws1 ++ "=" :: ws2 ++ rest)%list).
    { apply matches_star. exists ws1, ("=" :: ws2 ++ rest)%list.
      repeat split; [exact Hws1|].
      apply matches_one. exists "=", (ws2 ++ rest)%list.
      repeat split. apply matches_star. now exists ws2, rest. }
    destruct M as [m Hm]. exists m. apply exec_lit. now eexists.
Qed.

Lemma matches_word_group {U : Unicode} (l : list string) :
  matches [Open; Plus Word; Close] l <-> starts_with_word l.
Proof.
  rewrite (proj1 (matches_group _ _)), matches_plus. unfold starts_with_word.
  split.
  - intros (p & q & -> & Hp0 & Hp & _). destruct p as [|ch p]; [congruence|].
    simpl in Hp. apply andb_prop in Hp as [Hc _]. now exists ch, (p ++ q)%list.
  - intros (ch & rest & -> & Hc). exists [ch], rest.
    repeat split; [discriminate | simpl; now rewrite Hc |].
    apply matches_group. now eexists.
Qed.

Lemma matches_dotted_id {U : Unicode} (l : list string) :
  matches dotted_id l <-> starts_with_dotted l.
Proof.
  unfold dotted_id, starts_with_dotted, dotted_chars.
  rewrite (proj1 (matches_group _ _)), matches_plus. split.
  - intros (w & q & -> & Hw0 & Hw & M).
    apply matches_one in M as (ch & q' & -> & Hc & M).
    simpl in Hc. apply String.eqb_eq in Hc. subst ch.
    apply matches_plus in M as (d & rest & -> & Hd0 & Hd & _).
    exists (w ++ ["."] ++ d)%list, rest. split.
    + now rewrite <- !app_assoc.
    + now exists w, d.
  - intros (id & rest & -> & w & d & -> & Hw0 & Hw & Hd0 & Hd).
    exists w, (["."] ++ d ++ rest)%list.
    split; [now rewrite <- !app_assoc|].
    repeat split; [exact Hw0 | exact Hw |].
    apply matches_one. exists ".", (d ++ rest)%list. repeat split.
    apply matches_plus. exists d, rest.
    repeat split; [exact Hd0 | exact Hd |].
    apply matches_group. now eexists.
Qed.

Lemma namespace_found_iff {U : Unicode} (content : string) :
  search namespace_re content <> None <->
  assigns "namespace" starts_with_word content.
Proof.
  rewrite search_found_iff. unfold namespace_re, assigns. split.
  - intros (pre & rest & Hs & M).
    apply matches_assign in M as (ws1 & ws2 & tail & -> & H1 & H2 & M).
    apply matches_word_group in M. now exists pre, ws1, ws2, tail.
  - intros (pre & ws1 & ws2 & tail & Hs & H1 & H2 & M).
    exists pre, (letters "namespace" ++ ws1 ++ ["="] ++ ws2 ++ tail)%list.
    split; [exact Hs|]. apply matches_assign.
    exists ws1, ws2, tail. repeat split; try assumption.
    now apply matches_word_group.
Qed.

Lemma id_found_iff {U : Unicode} (content : string) :
  search id_re content <> None <-> assigns "id" starts_with_dotted content.
Proof.
  rewrite search_found_iff. unfold id_re, assigns. split.
  - intros (pre & rest & Hs & M).
    apply matches_assign in M as (ws1 & ws2 & tail & -> & H1 & H2 & M).
    apply matches_dotted_id in M. now exists pre, ws1, ws2, tail.
  - intros (pre & ws1 & ws2 & tail & Hs & H1 & H2 & M).
    exists pre, (letters "id" ++ ws1 ++ ["="] ++ ws2 ++ tail)%list.
    split; [exact Hs|]. apply matches_assign.
    exists ws1, ws2, tail. repeat split; try assumption.
    now apply matches_dotted_id.
Qed.

Lemma event_errors_cases {U : Unicode} (content : string) (file_path : Path) :
  event_errors content file_path =
    app (match search namespace_re content with
         | None =>
             ["Missing required field 'namespace' in " ++ str_path file_path]
         | Some _ => []
         end)
        (match search id_re content with
         | None => ["Missing required field 'id' in " ++ str_path file_path]
         | Some _ => []
         end).
Proof.
  unfold event_errors. rewrite validate_events_eq. unfold events_patterns.
  simpl.
  destruct (search namespace_re content); destruct (search id_re content);
    reflexivity.
Qed.

(** X9. The content check reports a missing namespace for an event file
    exactly when its text has no place where the word [namespace], white
    space, [=], white space and a word character follow one another, white
    space and word characters being those of Unicode. What stands before
    the word and after the first word character does not matter. *)
Theorem namespace_error_iff {U : Unicode} :
  forall content file_path,
    In ("Missing required field 'namespace' in " ++ str_path file_path)
       (event_errors content file_path) <->
    ~ assigns "namespace" starts_with_word content.
Proof.
  intros content file_path.
  rewrite <- namespace_found_iff, event_errors_cases.
  destruct (search namespace_re content) as [m|];
    destruct (search id_re content) as [m'|]; simpl; split.
  - intros [].
  - intros H. apply H. discriminate.
  - intros [H | []]. discriminate H.
  - intros H. exfalso. apply H. discriminate.
  - intros _ H. now apply H.
  - intros _. now left.
  - intros _ H. now apply H.
  - intros _. now left.
Qed.

(** X10. The content check reports a missing id for an event file exactly
    when its text has no place where the letters [id], white space, [=],
    white space and an identifier word.number follow one another, with the
    white space, word characters and digits of Unicode. The letters need
    not be a word of their own: the end of a longer name, as in
    [valid = a.1], counts. *)
Theorem id_error_iff {U : Unicode} :
  forall content file_path,
    In ("Missing required field 'id' in " ++ str_path file_path)
       (event_errors content file_path) <->
    ~ assigns "id" starts_with_dotted content.
Proof.
  intros content file_path.
  rewrite <- id_found_iff, event_errors_cases.
  destruct (search namespace_re content) as [m|];
    destruct (search id_re content) as [m'|]; simpl; split.
  - intros [].
  - intros H. apply H. discriminate.
  - intros _ H. now apply H.
  - intros _. now left.
  - intros [H | []]. discriminate H.
  - intros H. exfalso. apply H. discriminate.
  - intros _ H. now apply H.
  - intros _. right. now left.
Qed.

Example id_inside_a_longer_name {U : Unicode} :
  event_errors "namespace = x  valid = a.1" ["events"; "e.txt"] = [].
Proof. reflexivity. Qed.

(** ** What the reference resolver returns *)

Lemma flatten_chars (s : string) : flatten (chars s) = s.
Proof.
  induction s as [|c s IH]; [reflexivity|].
  cbn [chars]. destruct s as [|c' s'] eqn:Hs; [reflexivity|].
  rewrite <- Hs in *.
  destruct (continuation c').
  - destruct (chars s) as [|ch rest] eqn:Hch.
    + simpl in IH. subst s. discriminate IH.
    + simpl in IH |- *. now rewrite IH.
  - simpl. now rewrite IH.
Qed.

Lemma flatten_letters (w : string) : flatten (letters w) = w.
Proof. induction w as [|c w IH]; simpl; [reflexivity | now rewrite IH]. Qed.

Lemma prefix_append (w s : string) : prefix w (w ++ s) = true.
Proof.
  induction w as [|c w IH]; simpl; [now destruct s|].
  destruct (ascii_dec c c); [exact IH | congruence].
Qed.

Lemma contains_prefix (w s : string) : prefix w s = true -> contains w s = true.
Proof. intros H. destruct s; cbn [contains]; rewrite H; reflexivity. Qed.

Lemma contains_append (w pre s : string) :
  contains w s = true -> contains w (pre ++ s) = true.
Proof.
  intros H. induction pre as [|c pre IH]; simpl; [exact H|].
  rewrite IH. apply orb_true_r.
Qed.

Lemma contains_inside (w pre post : string) :
  contains w (pre ++ w ++ post) = true.
Proof. apply contains_append, contains_prefix, prefix_append. Qed.

(** Where the letters of [w] stand among the characters of a text, the text
    contains [w]. *)
Lemma contains_letters (w s : string) (pre post : list string) :
  chars s = (pre ++ letters w ++ post)%list -> contains w s = true.
Proof.
  intros H. rewrite <- (flatten_chars s), H, !flatten_app, flatten_letters.
  apply contains_inside.
Qed.

Lemma finditer_from_nil {U : Unicode} (w : string) (r : regex) :
  forall l skip,
    (forall pre post, l <> (pre ++ letters w ++ post)%list) ->
    finditer_from (lit w ++ r)%list skip l = [].
Proof.
  assert (Hexec : forall l,
            (forall pre post, l <> (pre ++ letters w ++ post)%list) ->
            exec (lit w ++ r)%list l = None).
  { intros l Hl. destruct (exec (lit w ++ r)%list l) as [m|] eqn:H;
      [|reflexivity].
    apply exec_lit in H as (l' & Hl' & _). now contradiction (Hl [] l'). }
  induction l as [|ch l IH]; intros skip Hl.
  - destruct skip; simpl; [|reflexivity]. now rewrite (Hexec [] Hl).
  - assert (Hl' : forall pre post, l <> (pre ++ letters w ++ post)%list).
    { intros pre post ->. now apply (Hl (ch :: pre) post). }
    destruct skip; cbn [finditer_from]; [|now apply IH].
    rewrite (Hexec _ Hl). now apply IH.
Qed.

(** X11. A text in which the word [trigger_event] does not occur, the
    empty text included, has no references. *)
Theorem extract_references_none {U : Unicode} :
  forall self content,
    contains "trigger_event" content = false ->
    _extract_references self content = [].
Proof.
  intros self content H. unfold _extract_references, finditer.
  unfold trigger_event_re, assign. rewrite <- app_assoc.
  rewrite (finditer_from_nil "trigger_event"); [reflexivity|].
  intros pre post Hl. apply contains_letters in Hl. congruence.
Qed.

Lemma extract_references_none_witness :
  _extract_references Scenario.manager Scenario.decision_text = [].
Proof.
  apply extract_references_none. reflexivity.
Defined.

Lemma finditer_from_places {U : Unicode} (r : regex) :
  forall l skip m,
    In m (finditer_from r skip l) ->
    exists pre rest, l = (pre ++ rest)%list /\ exec r rest = Some m.
Proof.
  induction l as [|ch l IH]; intros skip m.
  - destruct skip; simpl; [|tauto].
    destruct (exec r []) as [m'|] eqn:H; simpl; [|tauto].
    intros [<- | []]. now exists [], [].
  - assert (Hrest : forall k, In m (finditer_from r k l) ->
              exists pre rest,
                ch :: l = (pre ++ rest)%list /\ exec r rest = Some m).
    { intros k Hin. destruct (IH _ _ Hin) as (pre & rest & -> & Hm).
      now exists (ch :: pre), rest. }
    destruct skip; cbn [finditer_from]; [|apply Hrest].
    destruct (exec r (ch :: l)) as [m'|] eqn:H; [|apply Hrest].
    intros [<- | Hin]; [now exists [], (ch :: l) | exact (Hrest _ Hin)].
Qed.

(** X12. Every reference the resolver returns is written in the text: its
    identifier, a word, a dot and a number, stands there after the word
    [trigger_event], white space, [=] and white space, with the white
    space, word characters and digits of Unicode. The resolver makes up no
    identifier. *)
Theorem extract_references_in_text {U : Unicode} :
  forall self content ref,
    In ref (_extract_references self content) ->
    ref_type ref = "event" /\
    exists pre ws1 ws2 id rest,
      chars content
        = (pre ++ letters "trigger_event" ++ ws1 ++ ["="] ++ ws2
               ++ id ++ rest)%list /\
      ref_id ref = flatten id /\
      dotted_chars id /\
      forallb is_space ws1 = true /\ forallb is_space ws2 = true.
Proof.
  intros self content ref. unfold _extract_references.
  rewrite fold_left_append. simpl. rewrite in_map_iff.
  intros (m & <- & Hm). split; [reflexivity|].
  destruct (finditer_from_places _ _ _ _ Hm) as (pre & l & Hl & Hexec).
  destruct (exec_reference_at _ _ Hexec) as (id & Hat & Hfound).
  destruct Hat as (ws1 & ws2 & -> & Hws1 & Hws2 & Hid & _).
  exists pre, ws1, ws2, id, (m_end m). cbn [ref_id].
  repeat split; try assumption.
  rewrite Hfound. apply group1_found.
Qed.

Lemma extract_references_in_text_witness :
  exists pre ws1 ws2 id rest,
    chars "on_accept = { trigger_event = war.7 }"
      = (pre ++ letters "trigger_event" ++ ws1 ++ ["="] ++ ws2
             ++ id ++ rest)%list /\
    "war.7" = flatten id /\
    dotted_chars id /\
    forallb is_space ws1 = true /\ forallb is_space ws2 = true.
Proof.
  apply (extract_references_in_text Scenario.manager
           "on_accept = { trigger_event = war.7 }"
           (mkReference "event" "war.7")).
  simpl. now left.
Defined.

(** ** Changes to the file system *)

Lemma bind_ok {A B : Type} (c : Result A) (k : A -> Result B) (b : B) :
  bind c k = Ok b -> exists a, c = Ok a /\ k a = Ok b.
Proof. destruct c as [a|e]; simpl; [now exists a | discriminate]. Qed.

Section UpdateChild.

Variable c : string.
Variable f : node -> Result node.
Variable absent : Result node.
Hypothesis f_name : forall x x', f x = Ok x' -> node_name x' = node_name x.
Hypothesis absent_name : forall x, absent = Ok x -> node_name x = c.

Lemma update_child_find_same {U : Unicode} :
  forall children children',
    update_child c f absent children = Ok children' ->
    exists x',
      find (fun y => node_name y =? c) children' = Some x' /\
      match find (fun y => node_name y =? c) children with
      | Some x => f x = Ok x'
      | None => absent = Ok x'
      end.
Proof.
  induction children as [|x rest IH]; intros children' H; simpl in H.
  - apply bind_ok in H as (x' & Hx' & [= <-]). exists x'. simpl.
    now rewrite (absent_name _ Hx'), String.eqb_refl.
  - simpl. destruct (node_name x =? c) eqn:Hx.
    + apply bind_ok in H as (x' & Hx' & [= <-]). exists x'. simpl.
      now rewrite (f_name _ _ Hx'), Hx.
    + apply bind_ok in H as (rest' & Hrest & [= <-]). simpl. rewrite Hx.
      now apply IH.
Qed.

Lemma update_child_find_other {U : Unicode} :
  forall c' children children',
    c' <> c ->
    update_child c f absent children = Ok children' ->
    find (fun y => node_name y =? c') children'
      = find (fun y => node_name y =? c') children.
Proof.
  intros c' children children' Hc'. revert children'.
  induction children as [|x rest IH]; intros children' H; simpl in H.
  - apply bind_ok in H as (x' & Hx' & [= <-]). simpl.
    rewrite (absent_name _ Hx').
    now apply String.eqb_neq in Hc'; rewrite String.eqb_sym, Hc'.
  - destruct (node_name x =? c) eqn:Hx.
    + apply bind_ok in H as (x' & Hx' & [= <-]). simpl.
      rewrite (f_name _ _ Hx'). apply String.eqb_eq in Hx. rewrite Hx.
      now apply String.eqb_neq in Hc'; rewrite String.eqb_sym, Hc'.
    + apply bind_ok in H as (rest' & Hrest & [= <-]). simpl.
      now rewrite (IH _ Hrest).
Qed.

End UpdateChild.

Lemma update_child_ok (c : string) (f : node -> Result node)
    (absent : Result node) :
  forall children,
    (forall x, find (fun y => node_name y =? c) children = Some x ->
       exists x', f x = Ok x') ->
    (find (fun y => node_name y =? c) children = None ->
       exists x', absent = Ok x') ->
    exists children', update_child c f absent children = Ok children'.
Proof.
  induction children as [|x rest IH]; simpl; intros Hsome Hnone.
  - destruct (Hnone eq_refl) as [x' ->]. now eexists.
  - destruct (node_name x =? c).
    + destruct (Hsome x eq_refl) as [x' ->]. now eexists.
    + destruct (IH Hsome Hnone) as [rest' ->]. now eexists.
Qed.

Lemma resolve_app (p q : Path) :
  forall n,
    resolve n (p ++ q)%list =
      match resolve n p with
      | Some x => resolve x q
      | None => None
      end.
Proof.
  induction p as [|c p IH]; intros n; simpl; [reflexivity|].
  destruct n as [|name children]; [reflexivity|].
  destruct (find _ children); [apply IH | reflexivity].
Qed.

Lemma resolve_below_file (name : string) (data : file_data) (q : Path) :
  q <> [] -> resolve (File name data) q = None.
Proof. destruct q; [congruence | reflexivity]. Qed.

Lemma resolve_below_empty (name : string) (q : Path) :
  q <> [] -> resolve (Dir name []) q = None.
Proof. destruct q; [congruence | reflexivity]. Qed.

(** *** Making directories *)

Lemma mkdir_p_name (full : Path) :
  forall p n n', mkdir_p full p n = Ok n' -> node_name n' = node_name n.
Proof.
  intros [|c p] [name data | name children] n' H; simpl in H;
    try discriminate.
  - now injection H as <-.
  - now apply bind_ok in H as (children' & _ & [= <-]).
Qed.

Lemma mkdir_p_new_name (full p : Path) (c : string) (x : node) :
  mkdir_p full p (Dir c []) = Ok x -> node_name x = c.
Proof. intros H. now apply mkdir_p_name in H. Qed.

(** Where the walk does not pass, nothing changes. *)
Lemma mkdir_p_elsewhere (full : Path) :
  forall p n n',
    mkdir_p full p n = Ok n' ->
    forall q, (forall r, p <> (q ++ r)%list) -> resolve n' q = resolve n q.
Proof.
  induction p as [|c p IH]; intros n n' H q Hq.
  - destruct n; simpl in H; [discriminate|]. now injection H as <-.
  - destruct n as [|name children]; [discriminate|]. simpl in H.
    apply bind_ok in H as (children' & Hup & [= <-]).
    destruct q as [|c' q]; [now contradiction (Hq (c :: p))|].
    simpl. destruct (String.eqb_spec c' c) as [-> | Hc'].
    + assert (Hq' : forall r, p <> (q ++ r)%list)
        by (intros r ->; now apply (Hq r)).
      destruct (update_child_find_same c _ _ (mkdir_p_name full p)
                  (mkdir_p_new_name full p c) _ _ Hup) as (x' & -> & Hx').
      destruct (find _ children) as [x|].
      * exact (IH _ _ Hx' q Hq').
      * rewrite (IH _ _ Hx' q Hq'). apply resolve_below_empty.
        intros ->. now apply (Hq' p).
    + now rewrite (update_child_find_other c _ _ (mkdir_p_name full p)
                     (mkdir_p_new_name full p c) c' _ _ Hc' Hup).
Qed.

(** The path is a directory afterwards. *)
Lemma mkdir_p_made (full : Path) :
  forall p n n', mkdir_p full p n = Ok n' -> dir_at n' p.
Proof.
  unfold dir_at.
  induction p as [|c p IH]; intros n n' H.
  - destruct n as [|name children]; simpl in H; [discriminate|].
    injection H as <-. now exists name, children.
  - destruct n as [|name children]; [discriminate|]. simpl in H.
    apply bind_ok in H as (children' & Hup & [= <-]). simpl.
    destruct (update_child_find_same c _ _ (mkdir_p_name full p)
                (mkdir_p_new_name full p c) _ _ Hup) as (x' & -> & Hx').
    destruct (find _ children) as [x|]; exact (IH _ _ Hx').
Qed.

(** Files are neither made, nor removed, nor changed. *)
Lemma mkdir_p_files (full : Path) :
  forall p n n',
    mkdir_p full p n = Ok n' ->
    forall q name data,
      resolve n' q = Some (File name data) <->
      resolve n q = Some (File name data).
Proof.
  induction p as [|c p IH]; intros n n' H q fname data.
  - destruct n; simpl in H; [discriminate|]. now injection H as <-.
  - destruct n as [|name children]; [discriminate|]. simpl in H.
    apply bind_ok in H as (children' & Hup & [= <-]).
    destruct q as [|c' q]; [simpl; split; discriminate|].
    simpl. destruct (String.eqb_spec c' c) as [-> | Hc'].
    + destruct (update_child_find_same c _ _ (mkdir_p_name full p)
                  (mkdir_p_new_name full p c) _ _ Hup) as (x' & -> & Hx').
      destruct (find _ children) as [x|].
      * exact (IH _ _ Hx' q fname data).
      * rewrite (IH _ _ Hx' q fname data).
        destruct q; simpl; split; discriminate.
    + now rewrite (update_child_find_other c _ _ (mkdir_p_name full p)
                     (mkdir_p_new_name full p c) c' _ _ Hc' Hup).
Qed.

(** Directories stay directories. *)
Lemma mkdir_p_dirs (full : Path) :
  forall p n n',
    mkdir_p full p n = Ok n' ->
    forall q, dir_at n q -> dir_at n' q.
Proof.
  unfold dir_at.
  induction p as [|c p IH]; intros n n' H q.
  - destruct n; simpl in H; [discriminate|]. now injection H as <-.
  - destruct n as [|name children]; [discriminate|]. simpl in H.
    apply bind_ok in H as (children' & Hup & [= <-]).
    destruct q as [|c' q]; [intros _; now exists name, children'|].
    simpl. destruct (String.eqb_spec c' c) as [-> | Hc'].
    + destruct (update_child_find_same c _ _ (mkdir_p_name full p)
                  (mkdir_p_new_name full p c) _ _ Hup) as (x' & -> & Hx').
      destruct (find _ children) as [x|].
      * exact (IH _ _ Hx' q).
      * intros (dname & dchildren & Hd). discriminate.
    + now rewrite (update_child_find_other c _ _ (mkdir_p_name full p)
                     (mkdir_p_new_name full p c) c' _ _ Hc' Hup).
Qed.

(** The call succeeds when no file is on the way. *)
Lemma mkdir_p_ok (full : Path) :
  forall p n, no_file_on n p -> exists n', mkdir_p full p n = Ok n'.
Proof.
  unfold no_file_on.
  induction p as [|c p IH]; intros n Hn.
  - destruct n as [name data | name children].
    + now contradiction (Hn [] [] name data eq_refl).
    + now eexists.
  - destruct n as [name data | name children].
    + now contradiction (Hn [] (c :: p) name data eq_refl).
    + simpl.
      destruct (update_child_ok c (mkdir_p full p) (mkdir_p full p (Dir c []))
                  children) as [children' ->]; [| |now eexists].
      * intros x Hx. apply IH. intros q r fname data -> Hq.
        apply (Hn (c :: q) r fname data eq_refl). simpl. now rewrite Hx.
      * intros _. apply IH. intros q r fname data _.
        destruct q; simpl; discriminate.
Qed.

(** A directory that did not exist is made empty. *)
Lemma mkdir_p_fresh (full : Path) :
  forall p n n',
    mkdir_p full p n = Ok n' ->
    resolve n p = None ->
    exists name, resolve n' p = Some (Dir name []).
Proof.
  induction p as [|c p IH]; intros n n' H Hnone; [discriminate|].
  destruct n as [|name children]; [discriminate|]. simpl in H.
  apply bind_ok in H as (children' & Hup & [= <-]). simpl in Hnone |- *.
  destruct (update_child_find_same c _ _ (mkdir_p_name full p)
              (mkdir_p_new_name full p c) _ _ Hup) as (x' & -> & Hx').
  destruct (find _ children) as [x|]; [exact (IH _ _ Hx' Hnone)|].
  destruct p as [|c' p].
  - simpl in Hx'. injection Hx' as <-. now exists c.
  - exact (IH _ _ Hx' eq_refl).
Qed.

(** *** Writing a file *)

Lemma write_file_name (full : Path) (content : string) :
  forall p n n',
    write_file full p content n = Ok n' -> node_name n' = node_name n.
Proof.
  intros [|c p] [name data | name children] n' H; simpl in H;
    try discriminate.
  - now injection H as <-.
  - now apply bind_ok in H as (children' & _ & [= <-]).
Qed.

Lemma write_file_new_name (full p : Path) (content c : string) (x : node) :
  match p with
  | [] => Ok (File c (Text (read_back content)))
  | _ :: _ =>
      Raise (OSError ("[Errno 2] No such file or directory: '"
                      ++ path_text full ++ "'"))
  end = Ok x ->
  p = [] /\ x = File c (Text (read_back content)).
Proof. destruct p; [now intros [= <-] | discriminate]. Qed.

Lemma write_file_new_name' (full p : Path) (content c : string) (x : node) :
  match p with
  | [] => Ok (File c (Text (read_back content)))
  | _ :: _ =>
      Raise (OSError ("[Errno 2] No such file or directory: '"
                      ++ path_text full ++ "'"))
  end = Ok x ->
  node_name x = c.
Proof. intros H. now apply write_file_new_name in H as [_ ->]. Qed.

(** Where the walk does not pass, nothing changes. *)
Lemma write_file_elsewhere (full : Path) (content : string) :
  forall p n n',
    write_file full p content n = Ok n' ->
    forall q, (forall r, p <> (q ++ r)%list) -> resolve n' q = resolve n q.
Proof.
  induction p as [|c p IH]; intros n n' H q Hq.
  - destruct n as [name data|]; simpl in H; [|discriminate].
    injection H as <-.
    destruct q as [|c' q]; [now contradiction (Hq [])|reflexivity].
  - destruct n as [|name children]; [discriminate|]. simpl in H.
    apply bind_ok in H as (children' & Hup & [= <-]).
    destruct q as [|c' q]; [now contradiction (Hq (c :: p))|].
    simpl. destruct (String.eqb_spec c' c) as [-> | Hc'].
    + assert (Hq' : forall r, p <> (q ++ r)%list)
        by (intros r ->; now apply (Hq r)).
      destruct (update_child_find_same c _ _ (write_file_name full content p)
                  (write_file_new_name' full p content c) _ _ Hup)
        as (x' & -> & Hx').
      destruct (find _ children) as [x|].
      * exact (IH _ _ Hx' q Hq').
      * apply write_file_new_name in Hx' as [-> ->].
        apply resolve_below_file. intros ->. now apply (Hq' []).
    + now rewrite (update_child_find_other c _ _
                     (write_file_name full content p)
                     (write_file_new_name' full p content c) c' _ _ Hc' Hup).
Qed.

(** A read of the file returns the text afterwards, with the line ends of
    a read. *)
Lemma write_file_written (full : Path) (content : string) :
  forall p n n',
    write_file full p content n = Ok n' ->
    exists name, resolve n' p = Some (File name (Text (read_back content))).
Proof.
  induction p as [|c p IH]; intros n n' H.
  - destruct n as [name data|]; simpl in H; [|discriminate].
    injection H as <-. now exists name.
  - destruct n as [|name children]; [discriminate|]. simpl in H.
    apply bind_ok in H as (children' & Hup & [= <-]). simpl.
    destruct (update_child_find_same c _ _ (write_file_name full content p)
                (write_file_new_name' full p content c) _ _ Hup)
      as (x' & -> & Hx').
    destruct (find _ children) as [x|]; [exact (IH _ _ Hx')|].
    apply write_file_new_name in Hx' as [-> ->]. now exists c.
Qed.

(** No other file is made, removed or changed. *)
Lemma write_file_files (full : Path) (content : string) :
  forall p n n',
    write_file full p content n = Ok n' ->
    forall q name data,
      q <> p ->
      (resolve n' q = Some (File name data) <->
       resolve n q = Some (File name data)).
Proof.
  induction p as [|c p IH]; intros n n' H q fname data Hq.
  - destruct n as [name data'|]; simpl in H; [|discriminate].
    injection H as <-. destruct q; [congruence | reflexivity].
  - destruct n as [|name children]; [discriminate|]. simpl in H.
    apply bind_ok in H as (children' & Hup & [= <-]).
    destruct q as [|c' q]; [simpl; split; discriminate|].
    simpl. destruct (String.eqb_spec c' c) as [-> | Hc'].
    + assert (Hq' : q <> p) by congruence.
      destruct (update_child_find_same c _ _ (write_file_name full content p)
                  (write_file_new_name' full p content c) _ _ Hup)
        as (x' & -> & Hx').
      destruct (find _ children) as [x|].
      * exact (IH _ _ Hx' q fname data Hq').
      * apply write_file_new_name in Hx' as [-> ->].
        rewrite resolve_below_file by exact Hq'. split; discriminate.
    + now rewrite (update_child_find_other c _ _
                     (write_file_name full content p)
                     (write_file_new_name' full p content c) c' _ _ Hc' Hup).
Qed.

(** Directories stay directories. *)
Lemma write_file_dirs (full : Path) (content : string) :
  forall p n n',
    write_file full p content n = Ok n' ->
    forall q, dir_at n q -> dir_at n' q.
Proof.
  unfold dir_at.
  induction p as [|c p IH]; intros n n' H q.
  - destruct n as [name data|]; simpl in H; [|discriminate].
    injection H as <-. destruct q; intros (dname & dchildren & Hd);
      discriminate.
  - destruct n as [|name children]; [discriminate|]. simpl in H.
    apply bind_ok in H as (children' & Hup & [= <-]).
    destruct q as [|c' q]; [intros _; now exists name, children'|].
    simpl. destruct (String.eqb_spec c' c) as [-> | Hc'].
    + destruct (update_child_find_same c _ _ (write_file_name full content p)
                  (write_file_new_name' full p content c) _ _ Hup)
        as (x' & -> & Hx').
      destruct (find _ children) as [x|].
      * exact (IH _ _ Hx' q).
      * intros (dname & dchildren & Hd). discriminate.
    + now rewrite (update_child_find_other c _ _
                     (write_file_name full content p)
                     (write_file_new_name' full p content c) c' _ _ Hc' Hup).
Qed.

(** The call succeeds in a directory, on a name that is not a directory. *)
Lemma write_file_ok (full : Path) (content c : string) :
  forall parent n,
    dir_at n parent ->
    ~ dir_at n (parent ++ [c])%list ->
    exists n', write_file full (parent ++ [c])%list content n = Ok n'.
Proof.
  unfold dir_at.
  induction parent as [|d parent IH]; intros n (name & children & Hn) Hc.
  - simpl in Hn. injection Hn as ->.
    change (write_file full ([] ++ [c])%list content (Dir name children))
      with (bind (update_child c (write_file full [] content)
                    (Ok (File c (Text (read_back content)))) children)
                 (fun children' => Ok (Dir name children'))).
    destruct (update_child_ok c (write_file full [] content)
                (Ok (File c (Text (read_back content)))) children)
      as [children' ->]; [| |now eexists].
    + intros x Hx. destruct x as [xname data | xname xchildren].
      * now eexists.
      * exfalso. apply Hc. exists xname, xchildren. simpl. now rewrite Hx.
    + intros _. now eexists.
  - destruct n as [|nname nchildren]; [discriminate|]. simpl in Hn.
    destruct (find (fun y => node_name y =? d) nchildren) as [x|] eqn:Hx;
      [|discriminate].
    change (write_file full ((d :: parent) ++ [c])%list content
              (Dir nname nchildren))
      with (bind (update_child d (write_file full (parent ++ [c])%list content)
                    (match (parent ++ [c])%list with
                     | [] => Ok (File d (Text (read_back content)))
                     | _ :: _ =>
                         Raise (OSError
                                  ("[Errno 2] No such file or directory: '"
                                   ++ path_text full ++ "'"))
                     end) nchildren)
                 (fun children' => Ok (Dir nname children'))).
    destruct (update_child_ok d (write_file full (parent ++ [c])%list content)
                (match (parent ++ [c])%list with
                 | [] => Ok (File d (Text (read_back content)))
                 | _ :: _ =>
                     Raise (OSError ("[Errno 2] No such file or directory: '"
                                     ++ path_text full ++ "'"))
                 end) nchildren)
      as [children' ->]; [| |now eexists].
    + intros y Hy. rewrite Hx in Hy. injection Hy as <-.
      apply IH; [now exists name, children|].
      intros Hd. apply Hc. simpl. now rewrite Hx.
    + rewrite Hx. discriminate.
Qed.

(** ** Creating a mod *)

Lemma fs_bind_raises {A B : Type} (k : FS B) :
  (forall fs, exists e fs', k fs = (Raise e, fs')) ->
  forall (c : FS A) fs,
    exists e fs', fs_bind c (fun _ => k) fs = (Raise e, fs').
Proof.
  intros Hk c fs. unfold fs_bind.
  destruct (c fs) as [[a | e] fs']; [apply Hk | now exists e, fs'].
Qed.

Lemma create_mod_try_raises (self : CK3ModManager) (mod_name : string)
    (mod_info : list (string * info_value)) (fs : node) :
  exists e fs', create_mod_try self mod_name mod_info fs = (Raise e, fs').
Proof.
  unfold create_mod_try. do 3 apply fs_bind_raises.
  intros fs0. unfold fs_bind, _create_base_files, undefined_method.
  now eexists _, _.
Qed.

(** X13. [create_mod] never returns True: whatever the manager, the name,
    the information given and the file system, it returns False, because
    the step after the descriptor asks for [self._create_base_files], which
    the class does not define. *)
Theorem create_mod_returns_false :
  forall self mod_name mod_info fs,
    fst (create_mod self mod_name mod_info fs) = false.
Proof.
  intros self mod_name mod_info fs. unfold create_mod.
  destruct (create_mod_try_raises self mod_name mod_info fs) as (e & fs' & ->).
  reflexivity.
Qed.

Lemma create_mod_leaves (self : CK3ModManager) (mod_name : string)
    (mod_info : list (string * info_value)) (fs : node) :
  snd (create_mod self mod_name mod_info fs)
    = snd (create_mod_try self mod_name mod_info fs).
Proof.
  unfold create_mod.
  now destruct (create_mod_try self mod_name mod_info fs) as [[created | e] fs'].
Qed.

Lemma untouched_refl (p : Path) (fs : node) : untouched_but p fs fs.
Proof. split; [reflexivity | auto]. Qed.

Lemma untouched_trans (p : Path) (fs1 fs2 fs3 : node) :
  untouched_but p fs1 fs2 -> untouched_but p fs2 fs3 -> untouched_but p fs1 fs3.
Proof.
  intros [F12 D12] [F23 D23]. split.
  - intros q name data Hq. now rewrite (F23 q name data Hq), (F12 q name data Hq).
  - auto.
Qed.

Lemma fs_bind_untouched {A B : Type} (p : Path) (c : FS A) (k : A -> FS B) :
  (forall fs, untouched_but p fs (snd (c fs))) ->
  (forall a fs, untouched_but p fs (snd (k a fs))) ->
  forall fs, untouched_but p fs (snd (fs_bind c k fs)).
Proof.
  intros Hc Hk fs. unfold fs_bind. specialize (Hc fs).
  destruct (c fs) as [[a | e] fs']; simpl in Hc; [|exact Hc].
  exact (untouched_trans _ _ _ _ Hc (Hk a fs')).
Qed.

Lemma mkdir_untouched (p q : Path) (fs : node) :
  untouched_but p fs (snd (mkdir q fs)).
Proof.
  unfold mkdir, fs_update.
  destruct (mkdir_p q q fs) as [fs'|e] eqn:H; simpl; [|apply untouched_refl].
  split.
  - intros x name data _. exact (mkdir_p_files _ _ _ _ H x name data).
  - exact (mkdir_p_dirs _ _ _ _ H).
Qed.

Lemma write_text_untouched (p : Path) (content : string) (fs : node) :
  untouched_but p fs (snd (write_text p content fs)).
Proof.
  unfold write_text, fs_update.
  destruct (write_file p p content fs) as [fs'|e] eqn:H; simpl;
    [|apply untouched_refl].
  split.
  - intros x name data Hx. exact (write_file_files _ _ _ _ _ H x name data Hx).
  - exact (write_file_dirs _ _ _ _ _ H).
Qed.

Lemma make_folders_untouched (p d : Path) :
  forall fl fs, untouched_but p fs (snd (make_folders d fl fs)).
Proof.
  induction fl as [|folder fl IH]; intros fs; simpl.
  - apply untouched_refl.
  - apply fs_bind_untouched; [apply mkdir_untouched | intros _; apply IH].
Qed.

(** X14. Whether it gets far or not, [create_mod] removes no directory
    and, the descriptor of the mod apart, makes, removes and changes no
    file: after the call the files are those of before, with the content
    of before. *)
Theorem create_mod_keeps_entries :
  forall self mod_name mod_info fs,
    (forall q name data,
       q <> (mod_dir self mod_name ++ ["descriptor.mod"])%list ->
       (resolve (snd (create_mod self mod_name mod_info fs)) q
          = Some (File name data) <->
        resolve fs q = Some (File name data))) /\
    (forall q,
       dir_at fs q ->
       dir_at (snd (create_mod self mod_name mod_info fs)) q).
Proof.
  intros self mod_name mod_info fs. rewrite create_mod_leaves.
  change (untouched_but (mod_dir self mod_name ++ ["descriptor.mod"])%list fs
            (snd (create_mod_try self mod_name mod_info fs))).
  revert fs. unfold create_mod_try.
  apply fs_bind_untouched; [intros fs; apply mkdir_untouched | intros _].
  apply fs_bind_untouched; [intros fs; apply make_folders_untouched | intros _].
  apply fs_bind_untouched;
    [intros fs; apply write_text_untouched | intros _].
  apply fs_bind_untouched; [intros fs; apply untouched_refl | intros _].
  intros fs. apply untouched_refl.
Qed.

Lemma create_mod_keeps_entries_witness :
  resolve (snd (create_mod Scenario.manager "test_mod" [] Scenario.fs))
          Scenario.event_file
    = Some (File "test_events.txt" (Text Scenario.event_text)).
Proof.
  apply (proj1 (create_mod_keeps_entries Scenario.manager "test_mod" []
                  Scenario.fs)).
  - discriminate.
  - reflexivity.
Defined.

Lemma no_file_on_mkdir (full p q : Path) (n n' : node) :
  mkdir_p full p n = Ok n' -> no_file_on n q -> no_file_on n' q.
Proof.
  intros H Hn x r name data Hq Hx.
  apply (Hn x r name data Hq). now apply (mkdir_p_files _ _ _ _ H).
Qed.

Lemma no_file_on_prefix (fs : node) (p r : Path) :
  no_file_on fs (p ++ r)%list -> no_file_on fs p.
Proof.
  intros H q t name data ->. apply (H q (t ++ r)%list name data).
  now rewrite app_assoc.
Qed.

Lemma mkdir_ok (p : Path) (fs : node) :
  no_file_on fs p ->
  exists fs', mkdir p fs = (Ok tt, fs') /\ mkdir_p p p fs = Ok fs'.
Proof.
  intros H. destruct (mkdir_p_ok p p fs H) as [fs' Hfs'].
  exists fs'. unfold mkdir, fs_update. now rewrite Hfs'.
Qed.

(** The loop over the folders, when nothing is in the way: every folder is
    a directory afterwards, and a path [other] that leads to none of them
    is as before. *)
Lemma make_folders_ok (d other : Path) :
  forall fl fs,
    (forall f, In f fl -> no_file_on fs (d ++ parts f)%list) ->
    (forall f r, In f fl -> (d ++ parts f)%list <> (other ++ r)%list) ->
    exists fs',
      make_folders d fl fs = (Ok tt, fs') /\
      (forall f, In f fl -> dir_at fs' (d ++ parts f)%list) /\
      resolve fs' other = resolve fs other /\
      (forall p, dir_at fs p -> dir_at fs' p).
Proof.
  induction fl as [|folder fl IH]; intros fs Hfree Hother.
  - exists fs. simpl. repeat split; [intros f [] | auto].
  - destruct (mkdir_ok _ fs (Hfree folder (or_introl eq_refl)))
      as (fs1 & Hrun & Hmk).
    destruct (IH fs1) as (fs' & Hrest & Hdirs & Hsame & Hkept).
    + intros f Hf. apply (no_file_on_mkdir _ _ _ _ _ Hmk).
      apply Hfree. now right.
    + intros f r Hf. apply Hother. now right.
    + exists fs'. simpl. unfold fs_bind. rewrite Hrun.
      split; [exact Hrest|]. split; [|split].
      * intros f [<- | Hf]; [|now apply Hdirs].
        apply Hkept. exact (mkdir_p_made _ _ _ _ Hmk).
      * rewrite Hsame. apply (mkdir_p_elsewhere _ _ _ _ Hmk).
        intros r. apply Hother. now left.
      * intros p Hp. apply Hkept. exact (mkdir_p_dirs _ _ _ _ Hmk p Hp).
Qed.

Lemma folders_apart (d : Path) :
  forall f r,
    In f folders ->
    (d ++ parts f)%list <> ((d ++ ["descriptor.mod"]) ++ r)%list.
Proof.
  intros f r Hf H. rewrite <- app_assoc in H. apply app_inv_head in H.
  simpl in Hf. destruct Hf as [<- | [<- | [<- | [<- | []]]]];
    vm_compute in H; discriminate H.
Qed.

Lemma path_not_longer (d : Path) (c : string) (r : Path) :
  d <> ((d ++ [c]) ++ r)%list.
Proof.
  intros H. apply (f_equal (@List.length string)) in H.
  rewrite !length_app in H. simpl in H. lia.
Qed.

(** What [create_mod] leaves when nothing is in the way. *)
Lemma create_mod_scaffolds (self : CK3ModManager) (mod_name : string)
    (mod_info : list (string * info_value)) (fs : node) :
  can_scaffold fs (mod_dir self mod_name) ->
  exists fs',
    create_mod self mod_name mod_info fs = (false, fs') /\
    dir_at fs' (mod_dir self mod_name) /\
    (forall f, In f folders ->
       dir_at fs' (mod_dir self mod_name ++ parts f)%list) /\
    exists name,
      resolve fs' (mod_dir self mod_name ++ ["descriptor.mod"])%list =
        Some (File name
                (Text (read_back
                         (descriptor_text (mod_dir self mod_name) mod_info)))).
Proof.
  set (d := mod_dir self mod_name). intros [Hfree Hdesc].
  assert (Hd : no_file_on fs d).
  { apply (no_file_on_prefix fs d (parts "events")).
    apply Hfree. simpl. now left. }
  destruct (mkdir_ok d fs Hd) as (fs1 & Hrun1 & Hmk1).
  destruct (make_folders_ok d (d ++ ["descriptor.mod"])%list folders fs1)
    as (fs5 & Hrun5 & Hdirs & Hsame & Hkept).
  { intros f Hf. apply (no_file_on_mkdir _ _ _ _ _ Hmk1). now apply Hfree. }
  { apply folders_apart. }
  assert (Hd5 : dir_at fs5 d)
    by (apply Hkept; exact (mkdir_p_made _ _ _ _ Hmk1)).
  assert (Hdesc5 : ~ dir_at fs5 (d ++ ["descriptor.mod"])%list).
  { unfold dir_at. rewrite Hsame.
    rewrite (mkdir_p_elsewhere _ _ _ _ Hmk1) by apply path_not_longer.
    exact Hdesc. }
  destruct (write_file_ok (d ++ ["descriptor.mod"])%list
              (descriptor_text d mod_info) "descriptor.mod" d fs5 Hd5 Hdesc5)
    as [fs6 Hwrite].
  exists fs6.
  split; [|split; [|split]].
  - unfold create_mod, create_mod_try. fold d. unfold fs_bind at 1.
    rewrite Hrun1. unfold fs_bind at 1. rewrite Hrun5.
    unfold fs_bind at 1, _create_descriptor, write_text, fs_update.
    rewrite Hwrite. reflexivity.
  - exact (write_file_dirs _ _ _ _ _ Hwrite d Hd5).
  - intros f Hf. exact (write_file_dirs _ _ _ _ _ Hwrite _ (Hdirs f Hf)).
  - exact (write_file_written _ _ _ _ _ Hwrite).
Qed.

Lemma strip_bom_descriptor (d : Path) (mod_info : list (string * info_value)) :
  strip_bom (descriptor_text d mod_info) = descriptor_text d mod_info.
Proof.
  unfold descriptor_text, descriptor. cbn [fold_left].
  destruct (get_default "name" (IStr "New Mod") mod_info);
    cbn [descriptor_line append]; reflexivity.
Qed.

Lemma universal_newlines_no_cr (s : string) :
  count_char cr s = 0 -> universal_newlines s = s.
Proof.
  induction s as [|c s IH]; [reflexivity|]. cbn [count_char universal_newlines].
  destruct (c =? cr)%char; [discriminate|].
  intros H. now rewrite (IH H).
Qed.

(** X15. When no file stands where the mod folder, one of its parents or
    one of the folders [events], [common/decisions], [localization] and
    [gfx] has to be, and no directory where [descriptor.mod] has to be,
    [create_mod] leaves the mod folder and the four folders as directories
    and a descriptor that reads back as the five lines it wrote, with
    every line end [\r\n] or [\r] of a value turned into [\n]: as
    they were written when no value holds a carriage return. And it still
    returns False. *)
Theorem create_mod_scaffold :
  forall self mod_name mod_info fs,
    can_scaffold fs (mod_dir self mod_name) ->
    fst (create_mod self mod_name mod_info fs) = false /\
    (forall f, In f folders ->
       dir_at (snd (create_mod self mod_name mod_info fs))
              (mod_dir self mod_name ++ parts f)%list) /\
    _read_file (snd (create_mod self mod_name mod_info fs))
               (mod_dir self mod_name ++ ["descriptor.mod"])%list
      = Ok (universal_newlines
              (descriptor_text (mod_dir self mod_name) mod_info)) /\
    (count_char cr (descriptor_text (mod_dir self mod_name) mod_info) = 0 ->
     _read_file (snd (create_mod self mod_name mod_info fs))
                (mod_dir self mod_name ++ ["descriptor.mod"])%list
       = Ok (descriptor_text (mod_dir self mod_name) mod_info)).
Proof.
  intros self mod_name mod_info fs Hcan.
  destruct (create_mod_scaffolds self mod_name mod_info fs Hcan)
    as (fs' & -> & _ & Hdirs & name & Hdesc).
  simpl. split; [reflexivity|]. split; [exact Hdirs|].
  unfold _read_file. rewrite Hdesc. unfold read_back.
  rewrite strip_bom_descriptor. split; [reflexivity|].
  intros Hcr. now rewrite universal_newlines_no_cr.
Qed.

(** A carriage return in a value is read back as a line feed. *)
Example descriptor_carriage_return :
  _read_file (snd (create_mod Scenario.manager "new_mod"
                              [("name", IStr ("A" ++ String cr "B"))]
                              (Dir "" [])))
             ["mod"; "new_mod"; "descriptor.mod"]
    = Ok (descriptor_text ["mod"; "new_mod"]
            [("name", IStr ("A" ++ String lf "B"))]).
Proof. reflexivity. Qed.

Lemma empty_root_can_scaffold (d : Path) : d <> [] -> can_scaffold (Dir "" []) d.
Proof.
  intros Hd. split.
  - intros folder _ q r name data _. destruct q; simpl; discriminate.
  - intros (name & children & H). destruct d; [congruence | discriminate].
Qed.

Lemma create_mod_scaffold_witness :
  fst (create_mod Scenario.manager "new_mod" [("name", IStr "A mod")]
                  (Dir "" [])) = false /\
  (forall f, In f folders ->
     dir_at (snd (create_mod Scenario.manager "new_mod"
                             [("name", IStr "A mod")] (Dir "" [])))
            (["mod"; "new_mod"] ++ parts f)%list) /\
  _read_file (snd (create_mod Scenario.manager "new_mod"
                              [("name", IStr "A mod")] (Dir "" [])))
             ["mod"; "new_mod"; "descriptor.mod"]
    = Ok (universal_newlines
            (descriptor_text ["mod"; "new_mod"] [("name", IStr "A mod")])) /\
  (count_char cr (descriptor_text ["mod"; "new_mod"] [("name", IStr "A mod")])
     = 0 ->
   _read_file (snd (create_mod Scenario.manager "new_mod"
                               [("name", IStr "A mod")] (Dir "" [])))
              ["mod"; "new_mod"; "descriptor.mod"]
     = Ok (descriptor_text ["mod"; "new_mod"] [("name", IStr "A mod")])).
Proof.
  apply (create_mod_scaffold Scenario.manager "new_mod"
           [("name", IStr "A mod")] (Dir "" [])).
  apply empty_root_can_scaffold. discriminate.
Defined.

Lemma dir_at_exists (fs : node) (p : Path) : dir_at fs p -> exists_ fs p = true.
Proof. intros (name & children & H). unfold exists_. now rewrite H. Qed.

Lemma dir_at_parent (fs : node) (p : Path) (c : string) :
  dir_at fs (p ++ [c])%list -> dir_at fs p.
Proof.
  intros (name & children & H). rewrite resolve_app in H.
  destruct (resolve fs p) as [[fname data | dname dchildren]|] eqn:Hp;
    try discriminate.
  now exists dname, dchildren.
Qed.

(** X16. After such a call the structure check finds nothing missing
    among the required folders and does not warn about [gfx]: it adds no
    error, and its only warnings are for those of [music] and [interface]
    that are missing. *)
Theorem create_mod_then_validate_structure :
  forall self mod_name mod_info fs errors warnings,
    can_scaffold fs (mod_dir self mod_name) ->
    _validate_structure (snd (create_mod self mod_name mod_info fs))
                        (mod_dir self mod_name) errors warnings =
      (errors,
       (warnings ++
          map (append "Missing optional folder: ")
              (filter (missing (snd (create_mod self mod_name mod_info fs))
                               (mod_dir self mod_name))
                      ["music"; "interface"]))%list).
Proof.
  intros self mod_name mod_info fs errors warnings Hcan.
  destruct (create_mod_scaffolds self mod_name mod_info fs Hcan)
    as (fs' & -> & _ & Hdirs & _).
  simpl snd. rewrite validate_structure_eq.
  assert (De : dir_at fs' (mod_dir self mod_name ++ ["events"])%list)
    by exact (Hdirs "events" ltac:(simpl; auto)).
  assert (Dc : dir_at fs' (mod_dir self mod_name ++ ["common"])%list).
  { apply (dir_at_parent _ _ "decisions"). rewrite <- app_assoc.
    exact (Hdirs "common/decisions" ltac:(simpl; auto)). }
  assert (Dl : dir_at fs' (mod_dir self mod_name ++ ["localization"])%list)
    by exact (Hdirs "localization" ltac:(simpl; auto)).
  assert (Dg : dir_at fs' (mod_dir self mod_name ++ ["gfx"])%list)
    by exact (Hdirs "gfx" ltac:(simpl; auto)).
  assert (He : missing fs' (mod_dir self mod_name) "events" = false)
    by (unfold missing; now rewrite (dir_at_exists _ _ De)).
  assert (Hc : missing fs' (mod_dir self mod_name) "common" = false)
    by (unfold missing; now rewrite (dir_at_exists _ _ Dc)).
  assert (Hl : missing fs' (mod_dir self mod_name) "localization" = false)
    by (unfold missing; now rewrite (dir_at_exists _ _ Dl)).
  assert (Hg : missing fs' (mod_dir self mod_name) "gfx" = false)
    by (unfold missing; now rewrite (dir_at_exists _ _ Dg)).
  unfold required_folders, optional_folders.
  cbn [filter]. rewrite He, Hc, Hl, Hg. cbn [map]. now rewrite app_nil_r.
Qed.

Lemma create_mod_then_validate_structure_witness :
  _validate_structure
    (snd (create_mod Scenario.manager "new_mod" [] (Dir "" [])))
    ["mod"; "new_mod"] [] [] =
    ([], [ "Missing optional folder: music";
           "Missing optional folder: interface" ]).
Proof.
  apply (create_mod_then_validate_structure Scenario.manager "new_mod" []
           (Dir "" []) [] []).
  apply empty_root_can_scaffold. discriminate.
Defined.

(** The loop over the folders, when none of them exists and none leads to
    another: every folder is an empty directory afterwards, and what does
    not lead to one of them is as before. *)
Lemma make_folders_fresh (d : Path) :
  forall fl fs,
    NoDup fl ->
    (forall f g r, In f fl -> In g fl -> f <> g ->
       (d ++ parts f)%list <> ((d ++ parts g) ++ r)%list) ->
    (forall f, In f fl -> no_file_on fs (d ++ parts f)%list) ->
    (forall f, In f fl -> resolve fs (d ++ parts f)%list = None) ->
    exists fs',
      make_folders d fl fs = (Ok tt, fs') /\
      (forall f, In f fl ->
         exists name, resolve fs' (d ++ parts f)%list = Some (Dir name [])) /\
      (forall q,
         (forall f r, In f fl -> (d ++ parts f)%list <> (q ++ r)%list) ->
         resolve fs' q = resolve fs q).
Proof.
  induction fl as [|folder fl IH]; intros fs Hnodup Hapart Hfree Hnone.
  - exists fs. simpl. repeat split; intros f []; contradiction.
  - inversion Hnodup as [|x l Hnotin Hnodup']; subst.
    destruct (mkdir_ok _ fs (Hfree folder (or_introl eq_refl)))
      as (fs1 & Hrun & Hmk).
    assert (Hother : forall g, In g fl ->
              resolve fs1 (d ++ parts g)%list = resolve fs (d ++ parts g)%list).
    { intros g Hg. apply (mkdir_p_elsewhere _ _ _ _ Hmk). intros r.
      apply Hapart; [now left | now right | intros ->; contradiction]. }
    destruct (IH fs1 Hnodup') as (fs' & Hrest & Hempty & Hsame).
    + intros f g r Hf Hg. apply Hapart; now right.
    + intros f Hf. apply (no_file_on_mkdir _ _ _ _ _ Hmk).
      apply Hfree. now right.
    + intros g Hg. rewrite (Hother g Hg). apply Hnone. now right.
    + exists fs'. simpl. unfold fs_bind. rewrite Hrun.
      split; [exact Hrest|]. split.
      * intros f [<- | Hf]; [|now apply Hempty].
        rewrite Hsame.
        -- apply (mkdir_p_fresh _ _ _ _ Hmk). apply Hnone. now left.
        -- intros g r Hg. apply Hapart; [now right | now left |].
           intros ->; contradiction.
      * intros q Hq. rewrite Hsame by (intros f r Hf; apply Hq; now right).
        apply (mkdir_p_elsewhere _ _ _ _ Hmk). intros r. apply Hq. now left.
Qed.

Lemma folders_nodup : NoDup folders.
Proof.
  unfold folders. repeat constructor; simpl; intuition discriminate.
Qed.

Lemma folders_pairwise_apart (d : Path) :
  forall f g r,
    In f folders -> In g folders -> f <> g ->
    (d ++ parts f)%list <> ((d ++ parts g) ++ r)%list.
Proof.
  intros f g r Hf Hg Hfg H. rewrite <- app_assoc in H.
  apply app_inv_head in H. simpl in Hf, Hg.
  destruct Hf as [<- | [<- | [<- | [<- | []]]]];
    destruct Hg as [<- | [<- | [<- | [<- | []]]]];
    try congruence; vm_compute in H; discriminate H.
Qed.

Lemma descriptor_apart (d : Path) :
  forall f r,
    In f folders ->
    (d ++ ["descriptor.mod"])%list <> ((d ++ parts f) ++ r)%list.
Proof.
  intros f r Hf H. rewrite <- app_assoc in H. apply app_inv_head in H.
  simpl in Hf. destruct Hf as [<- | [<- | [<- | [<- | []]]]];
    vm_compute in H; discriminate H.
Qed.

Lemma no_file_on_below_absent (fs : node) (d s : Path) :
  no_file_on fs d -> resolve fs d = None -> no_file_on fs (d ++ s)%list.
Proof.
  intros Hd Hnone q r name data Hq Hfile.
  apply app_eq_app in Hq as [l [[Hq _] | [-> _]]].
  - now apply (Hd q l name data).
  - rewrite resolve_app, Hnone in Hfile. discriminate.
Qed.

(** What [create_mod] leaves for a mod folder that did not exist. *)
Lemma create_mod_fresh (self : CK3ModManager) (mod_name : string)
    (mod_info : list (string * info_value)) (fs : node) :
  no_file_on fs (mod_dir self mod_name) ->
  resolve fs (mod_dir self mod_name) = None ->
  exists fs',
    create_mod self mod_name mod_info fs = (false, fs') /\
    dir_at fs' (mod_dir self mod_name) /\
    forall f, In f folders ->
      exists name,
        resolve fs' (mod_dir self mod_name ++ parts f)%list = Some (Dir name []).
Proof.
  set (d := mod_dir self mod_name). intros Hd Hnone.
  destruct (mkdir_ok d fs Hd) as (fs1 & Hrun1 & Hmk1).
  destruct (mkdir_p_fresh _ _ _ _ Hmk1 Hnone) as [dname Hd1].
  destruct (make_folders_fresh d folders fs1 folders_nodup
              (folders_pairwise_apart d))
    as (fs5 & Hrun5 & Hempty & Hsame).
  { intros f Hf. apply (no_file_on_mkdir _ _ _ _ _ Hmk1).
    now apply no_file_on_below_absent. }
  { intros f Hf. rewrite resolve_app, Hd1. apply resolve_below_empty.
    simpl in Hf. destruct Hf as [<- | [<- | [<- | [<- | []]]]]; discriminate. }
  assert (Hd5 : dir_at fs5 d).
  { pose proof (proj2 (make_folders_untouched [] d folders fs1) d
                  (mkdir_p_made _ _ _ _ Hmk1)) as H.
    now rewrite Hrun5 in H. }
  assert (Hdesc5 : ~ dir_at fs5 (d ++ ["descriptor.mod"])%list).
  { unfold dir_at. rewrite Hsame by (intros f r Hf; now apply folders_apart).
    rewrite resolve_app, Hd1. simpl. intros (name & children & H).
    discriminate. }
  destruct (write_file_ok (d ++ ["descriptor.mod"])%list
              (descriptor_text d mod_info) "descriptor.mod" d fs5 Hd5 Hdesc5)
    as [fs6 Hwrite].
  exists fs6. split; [|split].
  - unfold create_mod, create_mod_try. fold d. unfold fs_bind at 1.
    rewrite Hrun1. unfold fs_bind at 1. rewrite Hrun5.
    unfold fs_bind at 1, _create_descriptor, write_text, fs_update.
    rewrite Hwrite. reflexivity.
  - exact (write_file_dirs _ _ _ _ _ Hwrite d Hd5).
  - intros f Hf. destruct (Hempty f Hf) as [name Hname]. exists name.
    rewrite (write_file_elsewhere _ _ _ _ _ Hwrite); [exact Hname|].
    intros r. now apply descriptor_apart.
Qed.

Lemma glob_empty_dir (fs : node) (base folder : Path) (ext name : string) :
  resolve fs (base ++ folder)%list = Some (Dir name []) ->
  glob fs base folder ext = [].
Proof. intros H. unfold glob. now rewrite H. Qed.

(** X17. When the mod folder does not exist yet and no file is among its
    parents, the mod that [create_mod] leaves has no event, decision or
    localization file: its statistics are all zero, and [validate_mod] on
    it gets as far as the cross-reference step, whose method is missing. *)
Theorem create_mod_fresh_is_empty {U : Unicode} :
  forall self mod_name mod_info fs,
    no_file_on fs (mod_dir self mod_name) ->
    exists_ fs (mod_dir self mod_name) = false ->
    _collect_stats (snd (create_mod self mod_name mod_info fs))
                   (mod_dir self mod_name) =
      [("events", 0); ("decisions", 0); ("localizations", 0)] /\
    validate_mod self (snd (create_mod self mod_name mod_info fs)) mod_name =
      mkModValidation false
        ["'CK3ModManager' object has no attribute '_validate_references'"] [].
Proof.
  intros self mod_name mod_info fs Hfree Hnew.
  assert (Hnone : resolve fs (mod_dir self mod_name) = None).
  { unfold exists_ in Hnew.
    destruct (resolve fs (mod_dir self mod_name)); [discriminate | reflexivity]. }
  destruct (create_mod_fresh self mod_name mod_info fs Hfree Hnone)
    as (fs' & -> & Hd & Hempty).
  simpl snd.
  destruct (Hempty "events" ltac:(simpl; auto)) as [ne He].
  destruct (Hempty "common/decisions" ltac:(simpl; auto)) as [nd Hdec].
  destruct (Hempty "localization" ltac:(simpl; auto)) as [nl Hl].
  change (parts "events") with ["events"] in He.
  change (parts "common/decisions") with ["common"; "decisions"] in Hdec.
  change (parts "localization") with ["localization"] in Hl.
  split.
  - unfold _collect_stats.
    now rewrite (glob_empty_dir _ _ _ _ _ He), (glob_empty_dir _ _ _ _ _ Hdec),
      (glob_empty_dir _ _ _ _ _ Hl).
  - apply validate_mod_reaches_references.
    + now apply dir_at_exists.
    + rewrite (glob_empty_dir _ _ _ _ _ He). intros f [].
    + exact (glob_empty_dir _ _ _ _ _ Hdec).
Qed.

Lemma create_mod_fresh_is_empty_witness :
  _collect_stats (snd (create_mod Scenario.manager "new_mod" [] Scenario.fs))
                 ["mod"; "new_mod"] =
    [("events", 0); ("decisions", 0); ("localizations", 0)] /\
  validate_mod Scenario.manager
               (snd (create_mod Scenario.manager "new_mod" [] Scenario.fs))
               "new_mod" =
    mkModValidation false
      ["'CK3ModManager' object has no attribute '_validate_references'"] [].
Proof.
  apply (create_mod_fresh_is_empty Scenario.manager "new_mod" [] Scenario.fs).
  - intros q r name data Hq.
    destruct q as [|a [|b [|c q]]]; try discriminate Hq.
    + discriminate.
    + injection Hq as <- _. discriminate.
    + injection Hq as <- <- _. discriminate.
  - reflexivity.
Defined.

(** *** Failing and repeating *)

Lemma bind_raise {A B : Type} (c : Result A) (k : A -> Result B) (e : exn) :
  c = Raise e -> bind c k = Raise e.
Proof. now intros ->. Qed.

Lemma update_child_raises (c : string) (f : node -> Result node)
    (absent : Result node) :
  forall children x,
    find (fun y => node_name y =? c) children = Some x ->
    (exists e, f x = Raise e) ->
    exists e, update_child c f absent children = Raise e.
Proof.
  induction children as [|y rest IH]; intros x Hx [e He]; [discriminate|].
  simpl in Hx |- *. destruct (node_name y =? c).
  - injection Hx as ->. rewrite He. now exists e.
  - destruct (IH x Hx (ex_intro _ e He)) as [e' ->]. now exists e'.
Qed.

(** A file on the way makes the call fail. *)
Lemma mkdir_p_blocked (full : Path) :
  forall q r n name data,
    resolve n q = Some (File name data) ->
    exists e, mkdir_p full (q ++ r)%list n = Raise e.
Proof.
  induction q as [|c q IH]; intros r n name data Hq.
  - simpl in Hq. injection Hq as ->. destruct r; simpl; now eexists.
  - destruct n as [|dname children]; [discriminate|]. simpl in Hq.
    destruct (find (fun y => node_name y =? c) children) as [x|] eqn:Hx;
      [|discriminate].
    change (mkdir_p full ((c :: q) ++ r)%list (Dir dname children))
      with (bind (update_child c (mkdir_p full (q ++ r)%list)
                    (mkdir_p full (q ++ r)%list (Dir c [])) children)
                 (fun children' => Ok (Dir dname children'))).
    destruct (update_child_raises c (mkdir_p full (q ++ r)%list)
                (mkdir_p full (q ++ r)%list (Dir c [])) children x Hx
                (IH r x name data Hq)) as [e ->].
    now exists e.
Qed.

(** X18. When the mod folder or one of its parents is a file,
    [create_mod] returns False and leaves the file system as it was. *)
Theorem create_mod_blocked :
  forall self mod_name mod_info fs q r name data,
    mod_dir self mod_name = (q ++ r)%list ->
    resolve fs q = Some (File name data) ->
    create_mod self mod_name mod_info fs = (false, fs).
Proof.
  intros self mod_name mod_info fs q r name data Hd Hq.
  unfold create_mod, create_mod_try, fs_bind at 1, mkdir, fs_update.
  rewrite Hd.
  destruct (mkdir_p_blocked (q ++ r)%list q r fs name data Hq) as [e ->].
  reflexivity.
Qed.

Lemma create_mod_blocked_witness :
  create_mod Scenario.manager "test_mod/events/test_events.txt/inner" []
             Scenario.fs = (false, Scenario.fs).
Proof.
  apply (create_mod_blocked Scenario.manager
           "test_mod/events/test_events.txt/inner" [] Scenario.fs
           Scenario.event_file ["inner"] "test_events.txt"
           (Text Scenario.event_text)); reflexivity.
Defined.

Lemma update_child_noop (c : string) (f : node -> Result node)
    (absent : Result node) :
  forall children x,
    find (fun y => node_name y =? c) children = Some x ->
    f x = Ok x ->
    update_child c f absent children = Ok children.
Proof.
  induction children as [|y rest IH]; intros x Hx Hf; [discriminate|].
  simpl in Hx |- *. destruct (node_name y =? c).
  - injection Hx as ->. now rewrite Hf.
  - now rewrite (IH x Hx Hf).
Qed.

(** Making a directory that is there changes nothing. *)
Lemma mkdir_p_existing (full : Path) :
  forall p n, dir_at n p -> mkdir_p full p n = Ok n.
Proof.
  unfold dir_at.
  induction p as [|c p IH]; intros n (name & children & Hn).
  - simpl in Hn. now injection Hn as ->.
  - destruct n as [|dname dchildren]; [discriminate|]. simpl in Hn |- *.
    destruct (find (fun y => node_name y =? c) dchildren) as [x|] eqn:Hx;
      [|discriminate].
    rewrite (update_child_noop c _ _ dchildren x Hx); [reflexivity|].
    apply IH. now exists name, children.
Qed.

(** Writing to a file the text it was last written changes nothing. *)
Lemma write_file_same (full : Path) (content : string) :
  forall p n name,
    resolve n p = Some (File name (Text (read_back content))) ->
    write_file full p content n = Ok n.
Proof.
  induction p as [|c p IH]; intros n name Hn.
  - simpl in Hn. now injection Hn as ->.
  - destruct n as [|dname dchildren]; [discriminate|]. simpl in Hn |- *.
    destruct (find (fun y => node_name y =? c) dchildren) as [x|] eqn:Hx;
      [|discriminate].
    rewrite (update_child_noop c _ _ dchildren x Hx); [reflexivity|].
    exact (IH x name Hn).
Qed.

Lemma fs_bind_idempotent {B : Type} (c : FS unit) (k : FS B)
    (P : node -> Prop) :
  (forall fs fs', c fs = (Ok tt, fs') -> P fs') ->
  (forall fs, P fs -> c fs = (Ok tt, fs)) ->
  (forall fs e fs', c fs = (Raise e, fs') -> fs' = fs) ->
  (forall fs, P fs -> P (snd (k fs))) ->
  idempotent k ->
  idempotent (c >> k).
Proof.
  intros Hpost Hnoop Hfail Hkeep Hk fs. unfold fs_bind.
  destruct (c fs) as [[[] | e] fs1] eqn:Hc.
  - specialize (Hkeep fs1 (Hpost _ _ Hc)). specialize (Hk fs1).
    destruct (k fs1) as [r fs2]. simpl in *.
    now rewrite (Hnoop fs2 Hkeep).
  - assert (fs1 = fs) by exact (Hfail _ _ _ Hc). subst fs1. simpl.
    now rewrite Hc.
Qed.

Lemma idempotent_ext {A : Type} (c c' : FS A) :
  (forall fs, c fs = c' fs) -> idempotent c -> idempotent c'.
Proof. intros Heq Hc fs. rewrite <- !Heq. apply Hc. Qed.

Lemma fs_bind_assoc {A B C : Type} (a : FS A) (b : FS B) (k : FS C) (fs : node) :
  (a >> (b >> k)) fs = ((a >> b) >> k) fs.
Proof.
  unfold fs_bind. now destruct (a fs) as [[x | e] fs1].
Qed.

Lemma mkdir_made (p : Path) (fs fs' : node) :
  mkdir p fs = (Ok tt, fs') -> dir_at fs' p.
Proof.
  unfold mkdir, fs_update.
  destruct (mkdir_p p p fs) as [n|e] eqn:H; [|discriminate].
  intros [= <-]. exact (mkdir_p_made _ _ _ _ H).
Qed.

Lemma mkdir_existing (p : Path) (fs : node) :
  dir_at fs p -> mkdir p fs = (Ok tt, fs).
Proof.
  intros H. unfold mkdir, fs_update. now rewrite (mkdir_p_existing p p fs H).
Qed.

Lemma fs_update_fails (f : node -> Result node) (fs fs' : node) (e : exn) :
  fs_update f fs = (Raise e, fs') -> fs' = fs.
Proof.
  unfold fs_update. destruct (f fs); [discriminate | now intros [= _ <-]].
Qed.

Lemma mkdir_then_idempotent {B : Type} (p other : Path) (k : FS B) :
  (forall fs, untouched_but other fs (snd (k fs))) ->
  idempotent k ->
  idempotent (mkdir p >> k).
Proof.
  intros Hkeep Hk.
  apply (fs_bind_idempotent _ _ (fun fs => dir_at fs p)).
  - apply mkdir_made.
  - apply mkdir_existing.
  - intros fs e fs'. apply fs_update_fails.
  - intros fs. apply (proj2 (Hkeep fs)).
  - exact Hk.
Qed.

Lemma make_folders_then_idempotent {B : Type} (d other : Path) (k : FS B) :
  (forall fs, untouched_but other fs (snd (k fs))) ->
  idempotent k ->
  forall fl, idempotent (make_folders d fl >> k).
Proof.
  intros Hkeep Hk. induction fl as [|folder fl IH].
  - apply (idempotent_ext k); [reflexivity | exact Hk].
  - apply (idempotent_ext
             (mkdir (d ++ parts folder)%list >> (make_folders d fl >> k))).
    + intros fs. apply fs_bind_assoc.
    + apply (mkdir_then_idempotent _ other); [|exact IH].
      apply fs_bind_untouched;
        [apply make_folders_untouched | intros _; exact Hkeep].
Qed.

Lemma descriptor_then_idempotent (d : Path)
    (mod_info : list (string * info_value)) :
  idempotent (_create_descriptor d mod_info >>
              _create_base_files d >> fs_ret true).
Proof.
  apply (fs_bind_idempotent _ _
           (fun fs => exists name,
              resolve fs (d ++ ["descriptor.mod"])%list =
                Some (File name
                        (Text (read_back (descriptor_text d mod_info)))))).
  - intros fs fs'. unfold _create_descriptor, write_text, fs_update.
    destruct (write_file _ _ _ fs) as [n|e] eqn:H; [|discriminate].
    intros [= <-]. exact (write_file_written _ _ _ _ _ H).
  - intros fs [name H]. unfold _create_descriptor, write_text, fs_update.
    now rewrite (write_file_same _ _ _ _ _ H).
  - intros fs e fs'. apply fs_update_fails.
  - intros fs H. exact H.
  - intros fs. reflexivity.
Qed.

Lemma descriptor_then_untouched (d : Path)
    (mod_info : list (string * info_value)) (fs : node) :
  untouched_but (d ++ ["descriptor.mod"])%list fs
    (snd ((_create_descriptor d mod_info >>
           _create_base_files d >> fs_ret true) fs)).
Proof.
  revert fs. apply fs_bind_untouched.
  - intros fs. apply write_text_untouched.
  - intros _ fs. apply untouched_refl.
Qed.

Lemma create_mod_try_idempotent (self : CK3ModManager) (mod_name : string)
    (mod_info : list (string * info_value)) :
  idempotent (create_mod_try self mod_name mod_info).
Proof.
  unfold create_mod_try.
  apply (mkdir_then_idempotent _
           (mod_dir self mod_name ++ ["descriptor.mod"])%list).
  - apply fs_bind_untouched;
      [apply make_folders_untouched | intros _; apply descriptor_then_untouched].
  - apply (make_folders_then_idempotent _
             (mod_dir self mod_name ++ ["descriptor.mod"])%list).
    + apply descriptor_then_untouched.
    + apply descriptor_then_idempotent.
Qed.

(** X19. Calling [create_mod] a second time with the same arguments
    changes nothing more and returns the same: the folders that are there
    are left alone, the descriptor is written with the same text, and a
    call that failed fails at the same step. *)
Theorem create_mod_twice :
  forall self mod_name mod_info fs,
    create_mod self mod_name mod_info
               (snd (create_mod self mod_name mod_info fs))
      = create_mod self mod_name mod_info fs.
Proof.
  intros self mod_name mod_info fs. rewrite create_mod_leaves.
  unfold create_mod.
  rewrite (create_mod_try_idempotent self mod_name mod_info fs).
  now destruct (create_mod_try self mod_name mod_info fs) as [[created | e] fs'].
Qed.

(** ** The descriptor *)

Lemma count_char_append (c : ascii) (s t : string) :
  count_char c (s ++ t) = count_char c s + count_char c t.
Proof.
  induction s as [|x s IH]; simpl; [reflexivity|]. rewrite IH. lia.
Qed.

Lemma count_char_concat (c : ascii) (sep : string) (items : list string) :
  count_char c sep = 0 ->
  (forall item, In item items -> count_char c item = 0) ->
  count_char c (String.concat sep items) = 0.
Proof.
  intros Hsep. induction items as [|x items IH]; intros Hitems;
    [reflexivity|].
  simpl. destruct items as [|y items].
  - apply Hitems. now left.
  - rewrite !count_char_append, Hsep, (Hitems x (or_introl eq_refl)).
    rewrite IH; [reflexivity|]. intros item Hitem. apply Hitems. now right.
Qed.

(** X20. The line that the descriptor gets for a list value has one
    opening brace and two closing ones (key and items holding no brace of
    their own): the braces of the written line do not balance. *)
Theorem descriptor_list_line_braces :
  forall key items,
    count_char "{" key = 0 -> count_char "}" key = 0 ->
    (forall item, In item items ->
       count_char "{" item = 0 /\ count_char "}" item = 0) ->
    count_char "{" (descriptor_line key (IList items)) = 1 /\
    count_char "}" (descriptor_line key (IList items)) = 2.
Proof.
  intros key items Hk1 Hk2 Hitems. unfold descriptor_line.
  rewrite !count_char_append, Hk1, Hk2.
  rewrite !(count_char_concat _ (quote ++ " " ++ quote) items);
    try reflexivity; try (intros item Hitem; now apply Hitems).
  split; reflexivity.
Qed.

Lemma descriptor_list_line_braces_witness :
  count_char "{" (descriptor_line "tags" (IList ["Historical"; "Gameplay"])) = 1 /\
  count_char "}" (descriptor_line "tags" (IList ["Historical"; "Gameplay"])) = 2.
Proof.
  apply descriptor_list_line_braces; try reflexivity.
  intros item [<- | [<- | []]]; split; reflexivity.
Defined.

(** ** The usage example *)

(** X21. Whatever the file system and however values are printed, the
    usage example prints nothing: [create_mod] returns False, so the
    example neither validates nor analyses the mod it has just made; what
    it leaves is what [create_mod] leaves. *)
Theorem main_prints_nothing {U : Unicode} :
  forall show_validation show_analysis fs,
    main show_validation show_analysis fs =
      ([], snd (create_mod main_manager "test_mod" main_mod_info fs)).
Proof.
  intros show_validation show_analysis fs. unfold main.
  pose proof (create_mod_try_raises main_manager "test_mod" main_mod_info fs)
    as (e & fs' & H).
  unfold create_mod. rewrite H. reflexivity.
Qed.

(** ** Entries that are not directories *)

Lemma append_inv_head (p s t : string) : p ++ s = p ++ t -> s = t.
Proof.
  induction p as [|c p IH]; simpl; [trivial|]. intros [= H]. now apply IH.
Qed.

(** X22. The structure check asks whether a name exists, not whether it
    is a directory: a plain file called [events], [gfx] or any other of the
    six names silences the finding for that name as a folder would. No
    error and no warning of the check names a folder under whose name
    something exists. *)
Theorem validate_structure_accepts_any_entry :
  forall fs mod_path folder entry errors warnings,
    resolve fs (mod_path ++ [folder])%list = Some entry ->
    ~ In ("Missing required folder: " ++ folder) errors ->
    ~ In ("Missing optional folder: " ++ folder) warnings ->
    ~ In ("Missing required folder: " ++ folder)
         (fst (_validate_structure fs mod_path errors warnings)) /\
    ~ In ("Missing optional folder: " ++ folder)
         (snd (_validate_structure fs mod_path errors warnings)).
Proof.
  intros fs mod_path folder entry errors warnings Hentry Herrors Hwarnings.
  assert (Hthere : missing fs mod_path folder = false)
    by (unfold missing, exists_; now rewrite Hentry).
  rewrite validate_structure_eq. cbn [fst snd].
  split; intros Hin; apply in_app_or in Hin as [Hin | Hin];
    try contradiction;
    apply in_map_iff in Hin as (f & Hf & Hin);
    [apply (append_inv_head "Missing required folder: ") in Hf
    |apply (append_inv_head "Missing optional folder: ") in Hf];
    subst f; apply filter_In in Hin as [_ Hmissing]; congruence.
Qed.

Lemma validate_structure_accepts_any_entry_witness :
  ~ In "Missing required folder: events"
       (fst (_validate_structure
               (Dir "" [Dir "m" [File "events" (Text "not a folder")]])
               ["m"] [] [])).
Proof.
  apply (validate_structure_accepts_any_entry
           (Dir "" [Dir "m" [File "events" (Text "not a folder")]])
           ["m"] "events" (File "events" (Text "not a folder")) [] []).
  - reflexivity.
  - intros [].
  - intros [].
Defined.
